(** * Eliot actions: the execution context, the action life cycle and the
      entry points [startAction] / [startTask] of [eliot/_action.py].

    The Python objects are embedded shallowly.  [Action] instances live in a
    store indexed by references, because the module shares them: the same
    object sits on the context stack, is the parent of later children and is
    held by callers.  Every method is a function in a small state-and-exception
    monad over that store. *)

From Stdlib Require Import Ascii.
From stdpp Require Import base option list gmap strings pretty relations.

Local Open Scope string_scope.
Local Open Scope list_scope.

(** ** Python values *)

(** The values that appear in message fields. *)
Inductive PyVal : Type :=
| PyNone
| PyBool (b : bool)
| PyInt (z : Z)
| PyStr (s : string).

(** A [dict] with string keys: the field mapping of a message. *)
Abbreviation Fields := (gmap string PyVal).

(** [d.update(other)]: the keys of [other] win. *)
Definition update (d other : Fields) : Fields := other ∪ d.

(** [d[k] = v]. *)
Definition setitem (k : string) (v : PyVal) (d : Fields) : Fields := <[k := v]> d.

(** An exception instance: the module and the name of its class, and its
    string form. *)
Record Exception : Type := {
  exc_module : string;
  exc_name : string;
  exc_text : string
}.

(** Modelled from the spec: [safeunicode] is imported from [eliot._util],
    which is not among the sources; the spec describes its result as the
    best-effort string form of the exception, which an [Exception] carries. *)
Definition safeunicode (e : Exception) : string := exc_text e.

(** What [list.pop] raises on an empty list. *)
Definition IndexError : Exception :=
  {| exc_module := "builtins"; exc_name := "IndexError";
     exc_text := "pop from empty list" |}.

(** What a call raises when a keyword names a parameter that is already
    bound.  The text names the function and the argument and differs between
    Python versions; it is not modelled. *)
Definition TypeError : Exception :=
  {| exc_module := "builtins"; exc_name := "TypeError";
     exc_text := "got multiple values for argument" |}.

(** What a callback of a deferred receives: a plain result, or a
    [twisted.python.failure.Failure] wrapping an exception in [value]. *)
Inductive PyObj : Type :=
| Plain (v : PyVal)
| Failure (value : Exception).

(** ** Collaborators *)

(** Loggers, threads and object references are identities. *)
Definition Logger := nat.
Definition Tid := nat.
Definition ref := nat.

(** A serializer is an opaque capability of the validation layer. *)
Definition Serializer := nat.

(** [eliot._validation._ActionSerializers]: one serializer per message kind. *)
Record _ActionSerializers : Type := {
  start : Serializer;
  success : Serializer;
  failure : Serializer
}.

(** [Message(contents, serializer)]. *)
Record Message : Type := {
  contents : Fields;
  serializer : option Serializer
}.

(** One call [Message(...).write(logger, action)], as the logger receives it. *)
Record Written : Type := {
  w_message : Message;
  w_logger : Logger;
  w_action : ref
}.

(** ** The [Action] object *)

(** [self._identification], a dict with exactly these three keys. *)
Record Identification : Type := {
  task_uuid : string;
  task_level : string;
  action_type : string
}.

Definition identification_dict (i : Identification) : Fields :=
  <["task_uuid" := PyStr (task_uuid i)]>
    (<["task_level" := PyStr (task_level i)]>
       (<["action_type" := PyStr (action_type i)]> ∅)).

Record Action : Type := {
  _numberOfChildren : nat;
  _numberOfMessages : nat;
  _successFields : Fields;
  _logger : Logger;
  _identification : Identification;
  _serializers : option _ActionSerializers;
  _finished : bool
}.

(** [Action.__init__]. *)
Definition Action_init (logger : Logger) (uuid level type : string)
    (serializers : option _ActionSerializers) : Action :=
  {| _numberOfChildren := 0;
     _numberOfMessages := 0;
     _successFields := ∅;
     _logger := logger;
     _identification :=
       {| task_uuid := uuid; task_level := level; action_type := type |};
     _serializers := serializers;
     _finished := false |}.

Definition set_numberOfChildren (n : nat) (A : Action) : Action :=
  {| _numberOfChildren := n;
     _numberOfMessages := _numberOfMessages A;
     _successFields := _successFields A;
     _logger := _logger A;
     _identification := _identification A;
     _serializers := _serializers A;
     _finished := _finished A |}.

Definition set_numberOfMessages (n : nat) (A : Action) : Action :=
  {| _numberOfChildren := _numberOfChildren A;
     _numberOfMessages := n;
     _successFields := _successFields A;
     _logger := _logger A;
     _identification := _identification A;
     _serializers := _serializers A;
     _finished := _finished A |}.

Definition set_successFields (f : Fields) (A : Action) : Action :=
  {| _numberOfChildren := _numberOfChildren A;
     _numberOfMessages := _numberOfMessages A;
     _successFields := f;
     _logger := _logger A;
     _identification := _identification A;
     _serializers := _serializers A;
     _finished := _finished A |}.

Definition set_finished (b : bool) (A : Action) : Action :=
  {| _numberOfChildren := _numberOfChildren A;
     _numberOfMessages := _numberOfMessages A;
     _successFields := _successFields A;
     _logger := _logger A;
     _identification := _identification A;
     _serializers := _serializers A;
     _finished := b |}.

(** ** Deferreds *)

(** The callbacks this development registers on a deferred: the closure
    [done] of [Action.finishAfter], which captures [self], and a probe that
    records what it receives and passes it on. *)
Inductive Callback : Type :=
| done_of (self : ref)
| probe (tag : nat).

(** ** The program state *)

Record State : Type := {
  (** the [Action] objects *)
  actions : gmap ref Action;
  (** [_context]: a [threading.local], so one [_stack] per thread, created
      empty when the thread first touches it; the top is the last element *)
  context : gmap Tid (list ref);
  (** the messages written so far, oldest first *)
  written : list Written;
  (** [uuid4()]: the values it will return, and how many were drawn *)
  uuid4_source : nat → string;
  uuid4_drawn : nat;
  (** the callback chains of the deferreds *)
  deferreds : gmap nat (list Callback);
  (** what the probes saw, oldest first *)
  probed : list (nat * PyObj)
}.

Definition set_actions (f : gmap ref Action → gmap ref Action) (s : State) : State :=
  {| actions := f (actions s); context := context s; written := written s;
     uuid4_source := uuid4_source s; uuid4_drawn := uuid4_drawn s;
     deferreds := deferreds s; probed := probed s |}.

Definition set_context (f : gmap Tid (list ref) → gmap Tid (list ref)) (s : State) : State :=
  {| actions := actions s; context := f (context s); written := written s;
     uuid4_source := uuid4_source s; uuid4_drawn := uuid4_drawn s;
     deferreds := deferreds s; probed := probed s |}.

Definition set_written (f : list Written → list Written) (s : State) : State :=
  {| actions := actions s; context := context s; written := f (written s);
     uuid4_source := uuid4_source s; uuid4_drawn := uuid4_drawn s;
     deferreds := deferreds s; probed := probed s |}.

Definition set_uuid4_drawn (n : nat) (s : State) : State :=
  {| actions := actions s; context := context s; written := written s;
     uuid4_source := uuid4_source s; uuid4_drawn := n;
     deferreds := deferreds s; probed := probed s |}.

Definition set_deferreds (f : gmap nat (list Callback) → gmap nat (list Callback))
    (s : State) : State :=
  {| actions := actions s; context := context s; written := written s;
     uuid4_source := uuid4_source s; uuid4_drawn := uuid4_drawn s;
     deferreds := f (deferreds s); probed := probed s |}.

Definition set_probed (f : list (nat * PyObj) → list (nat * PyObj)) (s : State) : State :=
  {| actions := actions s; context := context s; written := written s;
     uuid4_source := uuid4_source s; uuid4_drawn := uuid4_drawn s;
     deferreds := deferreds s; probed := f (probed s) |}.

(** ** The monad of methods *)

(** A call returns a value, raises an exception, or was made on a reference
    that denotes no object of the store (which no Python program can do). *)
Inductive Result (A : Type) : Type :=
| Returns (v : A) (s : State)
| Raises (e : Exception) (s : State)
| NoObject.

Arguments Returns {A} v s.
Arguments Raises {A} e s.
Arguments NoObject {A}.

Definition M (A : Type) : Type := State → Result A.

Definition ret {A} (v : A) : M A := fun s => Returns v s.

Definition raise {A} (e : Exception) : M A := fun s => Raises e s.

Definition bind {A B} (m : M A) (k : A → M B) : M B :=
  fun s =>
    match m s with
    | Returns v s' => k v s'
    | Raises e s' => Raises e s'
    | NoObject => NoObject
    end.

Notation "'let!' x ':=' m 'in' k" := (bind m (fun x => k))
  (at level 10, x name, m at level 100, k at level 200).
Notation "'do!' m 'in' k" := (bind m (fun _ => k))
  (at level 10, m at level 100, k at level 200).

(** [try: body finally: cleanup]. *)
Definition try_finally {A} (body : M A) (cleanup : M unit) : M A :=
  fun s =>
    match body s with
    | Returns v s1 =>
        match cleanup s1 with
        | Returns _ s2 => Returns v s2
        | Raises e s2 => Raises e s2
        | NoObject => NoObject
        end
    | Raises e s1 =>
        match cleanup s1 with
        | Returns _ s2 => Raises e s2
        | Raises e' s2 => Raises e' s2
        | NoObject => NoObject
        end
    | NoObject => NoObject
    end.

(** Reading the object behind a reference. *)
Definition deref (r : ref) : M Action :=
  fun s =>
    match actions s !! r with
    | Some A => Returns A s
    | None => NoObject
    end.

(** Overwriting the object behind a reference. *)
Definition assign (r : ref) (A : Action) : M unit :=
  fun s => Returns tt (set_actions <[r := A]> s).

(** Allocating a new object. *)
Definition new (A : Action) : M ref :=
  fun s =>
    let r := fresh (dom (actions s)) in
    Returns r (set_actions <[r := A]> s).

(** [unicode(uuid4())]. *)
Definition uuid4 : M string :=
  fun s => Returns (uuid4_source s (uuid4_drawn s)) (set_uuid4_drawn (S (uuid4_drawn s)) s).

(** ** [_ExecutionContext] *)

(** [self._stack] of the calling thread. *)
Definition stack_of (s : State) (t : Tid) : list ref := default [] (context s !! t).

(** [_ExecutionContext.push]: [self._stack.append(action)]. *)
Definition push (t : Tid) (action : ref) : M unit :=
  fun s => Returns tt (set_context <[t := stack_of s t ++ [action]]> s).

(** [_ExecutionContext.pop]: [self._stack.pop(-1)]. *)
Definition pop (t : Tid) : M unit :=
  fun s =>
    match stack_of s t with
    | [] => Raises IndexError s
    | _ :: _ => Returns tt (set_context <[t := removelast (stack_of s t)]> s)
    end.

(** [_ExecutionContext.current]. *)
Definition current (t : Tid) : M (option ref) :=
  fun s =>
    match stack_of s t with
    | [] => Returns None s
    | _ :: _ => Returns (last (stack_of s t)) s
    end.

Definition currentAction := current.

(** ** [Action] methods *)

(** [Action._incrementMessageCounter]: [next(self._numberOfMessages)]. *)
Definition _incrementMessageCounter (self : ref) : M nat :=
  let! A := deref self in
  do! assign self (set_numberOfMessages (S (_numberOfMessages A)) A) in
  ret (_numberOfMessages A).

(** Modelled from the spec: [Message] is imported from [eliot._message],
    which is not among the sources.  The spec and the docstring of
    [_incrementMessageCounter] say what [Message(...).write(logger, action)]
    does to the action: a message logged within an action draws the next
    value of the action's counter.  The message then reaches the logger; a
    write is recorded with the field values the dict holds at that moment. *)
Definition Message_write (m : Message) (logger : Logger) (action : ref) : M unit :=
  do! _incrementMessageCounter action in
  fun s =>
    Returns tt (set_written (fun l => l ++ [ {| w_message := m; w_logger := logger; w_action := action |} ]) s).

(** The serializer picked from [self._serializers]. *)
Definition pick (sel : _ActionSerializers → Serializer)
    (srs : option _ActionSerializers) : option Serializer :=
  match srs with
  | None => None
  | Some x => Some (sel x)
  end.

(** [Action._start]. *)
Definition _start (self : ref) (fields : Fields) : M unit :=
  let! A := deref self in
  let fields := setitem "action_status" (PyStr "started") fields in
  let fields := update fields (identification_dict (_identification A)) in
  let serializer := pick start (_serializers A) in
  Message_write {| contents := fields; serializer := serializer |} (_logger A) self.

(** The fields of a failure, before the identification is merged in. *)
Definition failure_fields (exception : Exception) : Fields :=
  setitem "action_status" (PyStr "failed")
    (setitem "reason" (PyStr (safeunicode exception))
       (setitem "exception"
          (PyStr (exc_module exception +:+ "." +:+ exc_name exception)) ∅)).

(** [Action.finish].  On success [fields] is the dict [self._successFields]
    itself, so what is stored into [fields] is stored into the action. *)
Definition finish (self : ref) (exception : option Exception) : M unit :=
  let! A := deref self in
  if _finished A then ret tt
  else
    let A := set_finished true A in
    do! assign self A in
    match exception with
    | None =>
        let fields := setitem "action_status" (PyStr "succeeded") (_successFields A) in
        let serializer := pick success (_serializers A) in
        let fields := update fields (identification_dict (_identification A)) in
        do! assign self (set_successFields fields A) in
        Message_write {| contents := fields; serializer := serializer |} (_logger A) self
    | Some exception =>
        let fields := failure_fields exception in
        let serializer := pick failure (_serializers A) in
        let fields := update fields (identification_dict (_identification A)) in
        Message_write {| contents := fields; serializer := serializer |} (_logger A) self
    end.

(** [Action.child]. *)
Definition child (self : ref) (logger : Logger) (type : string)
    (serializers : option _ActionSerializers) : M ref :=
  let! A := deref self in
  let A := set_numberOfChildren (_numberOfChildren A + 1) A in
  do! assign self A in
  let newLevel :=
    task_level (_identification A) +:+ pretty (_numberOfChildren A) +:+ "/" in
  new (Action_init logger (task_uuid (_identification A)) newLevel type serializers).

(** [Action.run]. *)
Definition run {A} (t : Tid) (self : ref) (f : M A) : M A :=
  do! push t self in
  try_finally f (pop t).

(** [Action.addSuccessFields]. *)
Definition addSuccessFields (self : ref) (fields : Fields) : M unit :=
  let! A := deref self in
  assign self (set_successFields (update (_successFields A) fields) A).

(** [Action.__enter__]. *)
Definition __enter__ (t : Tid) (self : ref) : M ref :=
  do! push t self in
  ret self.

(** [Action.__exit__]: it returns [None]. *)
Definition __exit__ (t : Tid) (self : ref) (exception : option Exception) : M PyVal :=
  do! pop t in
  do! finish self exception in
  ret PyNone.

(** ** [startAction] and [startTask] *)

(** The parameters of [startAction] and of [startTask].  The calls below
    bind all three; [fields] are the other keywords of the call. *)
Definition parameters : list string := ["logger"; "action_type"; "_serializers"].

(** The keywords of a call can be collected into [**fields]: none of them
    names a parameter.  Otherwise the call raises [TypeError] before the body
    runs. *)
Definition binds (fields : Fields) : bool :=
  forallb (fun k => bool_decide (fields !! k = None)) parameters.

(** [startTask]. *)
Definition startTask (logger : Logger) (type : string)
    (_serializers : option _ActionSerializers) (fields : Fields) : M ref :=
  if binds fields then
    let! u := uuid4 in
    let! action := new (Action_init logger u "/" type _serializers) in
    do! _start action fields in
    ret action
  else raise TypeError.

(** [startAction]. *)
Definition startAction (t : Tid) (logger : Logger) (type : string)
    (_serializers : option _ActionSerializers) (fields : Fields) : M ref :=
  if binds fields then
    let! parent := currentAction t in
    match parent with
    | None => startTask logger type _serializers fields
    | Some parent =>
        let! action := child parent logger type _serializers in
        do! _start action fields in
        ret action
    end
  else raise TypeError.

(** ** The [with] statement *)

(** Truth value of an object, as the [with] statement tests what
    [__exit__] returned. *)
Definition truthy (v : PyVal) : bool :=
  match v with
  | PyNone => false
  | PyBool b => b
  | PyInt z => negb (Z.eqb z 0)
  | PyStr s => negb (String.eqb s "")
  end.

(** [with self as target: body].  An exception of the body is handed to
    [__exit__] and raised again unless [__exit__] returns a true value. *)
Definition with_ (t : Tid) (self : ref) (body : ref → M unit) : M unit :=
  let! target := __enter__ t self in
  fun s1 =>
    match body target s1 with
    | Returns _ s2 => (do! __exit__ t self None in ret tt) s2
    | Raises e s2 =>
        match __exit__ t self (Some e) s2 with
        | Returns v s3 => if truthy v then Returns tt s3 else Raises e s3
        | Raises e' s3 => Raises e' s3
        | NoObject => NoObject
        end
    | NoObject => NoObject
    end.

(** ** [Action.finishAfter] *)

(** The exception [done] extracts from what the deferred fired with. *)
Definition exception_of (result : PyObj) : option Exception :=
  match result with
  | Failure value => Some value
  | Plain _ => None
  end.

(** The closure [done] inside [Action.finishAfter]. *)
Definition done (self : ref) (result : PyObj) : M PyObj :=
  let exception := exception_of result in
  do! finish self exception in
  ret result.

(** Modelled from the spec: the future-like handle is twisted's [Deferred],
    which is not among the sources.  The spec asks of it only that a
    continuation can be registered which later receives the result or the
    failure; [addBoth] appends the continuation to the chain. *)
Definition addBoth (deferred : nat) (cb : Callback) : M unit :=
  fun s =>
    match deferreds s !! deferred with
    | Some cbs => Returns tt (set_deferreds <[deferred := cbs ++ [cb]]> s)
    | None => NoObject
    end.

(** [Action.finishAfter]. *)
Definition finishAfter (self : ref) (deferred : nat) : M unit :=
  addBoth deferred (done_of self).

(** Calling one registered continuation. *)
Definition call (cb : Callback) (result : PyObj) : M PyObj :=
  match cb with
  | done_of self => done self result
  | probe tag => fun s => Returns result (set_probed (fun l => l ++ [(tag, result)]) s)
  end.

(** Modelled from the spec: when the future fires, each continuation of the
    chain receives what the one before it returned. *)
Fixpoint run_callbacks (cbs : list Callback) (result : PyObj) : M PyObj :=
  match cbs with
  | [] => ret result
  | cb :: rest =>
      let! result := call cb result in
      run_callbacks rest result
  end.

Definition fire (deferred : nat) (result : PyObj) : M PyObj :=
  fun s =>
    match deferreds s !! deferred with
    | Some cbs => run_callbacks cbs result (set_deferreds <[deferred := []]> s)
    | None => NoObject
    end.

(** ** Programs over the API *)

(** One call of the module's API. *)
Inductive Op : Type :=
| op_push (t : Tid) (action : ref)
| op_pop (t : Tid)
| op_current (t : Tid)
| op_start (self : ref) (fields : Fields)
| op_finish (self : ref) (exception : option Exception)
| op_child (self : ref) (logger : Logger) (type : string)
    (serializers : option _ActionSerializers)
| op_addSuccessFields (self : ref) (fields : Fields)
| op_enter (t : Tid) (self : ref)
| op_exit (t : Tid) (self : ref) (exception : option Exception)
| op_finishAfter (self : ref) (deferred : nat)
| op_fire (deferred : nat) (result : PyObj)
| op_startTask (logger : Logger) (type : string)
    (serializers : option _ActionSerializers) (fields : Fields)
| op_startAction (t : Tid) (logger : Logger) (type : string)
    (serializers : option _ActionSerializers) (fields : Fields).

(** What a call returned. *)
Inductive Out : Type :=
| out_unit
| out_ref (r : ref)
| out_current (r : option ref)
| out_val (v : PyVal)
| out_obj (o : PyObj).

Definition lift {A} (f : A → Out) (m : M A) : M Out :=
  let! v := m in ret (f v).

Definition perform (o : Op) : M Out :=
  match o with
  | op_push t a => lift (fun _ => out_unit) (push t a)
  | op_pop t => lift (fun _ => out_unit) (pop t)
  | op_current t => lift out_current (current t)
  | op_start self fields => lift (fun _ => out_unit) (_start self fields)
  | op_finish self e => lift (fun _ => out_unit) (finish self e)
  | op_child self lg ty sr => lift out_ref (child self lg ty sr)
  | op_addSuccessFields self fields =>
      lift (fun _ => out_unit) (addSuccessFields self fields)
  | op_enter t self => lift out_ref (__enter__ t self)
  | op_exit t self e => lift out_val (__exit__ t self e)
  | op_finishAfter self d => lift (fun _ => out_unit) (finishAfter self d)
  | op_fire d result => lift out_obj (fire d result)
  | op_startTask lg ty sr fields => lift out_ref (startTask lg ty sr fields)
  | op_startAction t lg ty sr fields =>
      lift out_ref (startAction t lg ty sr fields)
  end.

(** A straight-line program: the calls in order, stopping at the first
    exception. *)
Fixpoint perform_all (prog : list Op) : M (list Out) :=
  match prog with
  | [] => ret []
  | o :: rest =>
      let! v := perform o in
      let! vs := perform_all rest in
      ret (v :: vs)
  end.



(** ** What the methods produce *)

(** The message [_start] writes. *)
Definition start_message (A : Action) (fields : Fields) : Message :=
  {| contents :=
       <["task_uuid" := PyStr (task_uuid (_identification A))]>
         (<["task_level" := PyStr (task_level (_identification A))]>
            (<["action_type" := PyStr (action_type (_identification A))]>
               (<["action_status" := PyStr "started"]> fields)));
     serializer := pick start (_serializers A) |}.

(** The message the first [finish] writes. *)
Definition finish_message (A : Action) (exception : option Exception) : Message :=
  match exception with
  | None =>
      {| contents :=
           <["task_uuid" := PyStr (task_uuid (_identification A))]>
             (<["task_level" := PyStr (task_level (_identification A))]>
                (<["action_type" := PyStr (action_type (_identification A))]>
                   (<["action_status" := PyStr "succeeded"]> (_successFields A))));
         serializer := pick success (_serializers A) |}
  | Some e =>
      {| contents :=
           <["task_uuid" := PyStr (task_uuid (_identification A))]>
             (<["task_level" := PyStr (task_level (_identification A))]>
                (<["action_type" := PyStr (action_type (_identification A))]>
                   (<["action_status" := PyStr "failed"]>
                      (<["reason" := PyStr (exc_text e)]>
                         (<["exception" :=
                              PyStr (exc_module e +:+ "." +:+ exc_name e)]> ∅)))));
         serializer := pick failure (_serializers A) |}
  end.

(** The action object after a message was written within it. *)
Definition counted (A : Action) : Action :=
  set_numberOfMessages (S (_numberOfMessages A)) A.

(** The action object after its first [finish]. *)
Definition finished_action (A : Action) (exception : option Exception) : Action :=
  match exception with
  | None =>
      counted (set_successFields (contents (finish_message A None)) (set_finished true A))
  | Some _ => counted (set_finished true A)
  end.

(** The log of [s] with the message [m] of [self] at its end. *)
Definition wrote (m : Message) (logger : Logger) (self : ref) (s : State) : State :=
  set_written
    (fun l => l ++ [ {| w_message := m; w_logger := logger; w_action := self |} ]) s.

(** The child [child] creates. *)
Definition child_of (A : Action) (logger : Logger) (type : string)
    (serializers : option _ActionSerializers) : Action :=
  Action_init logger (task_uuid (_identification A))
    (task_level (_identification A) +:+ pretty (S (_numberOfChildren A)) +:+ "/")
    type serializers.

(** ** Reading the store *)

(** [task_level] and [task_uuid] of the action behind a reference. *)
Definition level_of (s : State) (r : ref) : option string :=
  (fun A => task_level (_identification A)) <$> actions s !! r.


(** ** A nesting of scopes *)


(** ** What a call leaves alone *)

(** Every action of [s] is still there in [s'], with the same identification
    and the same number of children, and finished if it was. *)
Definition undisturbed (s s' : State) : Prop :=
  ∀ r A, actions s !! r = Some A →
    ∃ A', actions s' !! r = Some A' ∧
          _identification A' = _identification A ∧
          _numberOfChildren A' = _numberOfChildren A ∧
          (_finished A = true → _finished A' = true).

(** The same, except that the actions in [parents] got one more child each
    time they occur there. *)
Definition count_of (r : ref) (parents : list ref) : nat :=
  length (filter (fun p => p = r) parents).

Definition grown (parents : list ref) (s s' : State) : Prop :=
  ∀ r A, actions s !! r = Some A →
    ∃ A', actions s' !! r = Some A' ∧
          _identification A' = _identification A ∧
          _numberOfChildren A' = _numberOfChildren A + count_of r parents ∧
          (_finished A = true → _finished A' = true).

(** The calls of a program that are [child] on [a], with what they returned. *)
Fixpoint children_in (a : ref) (prog : list Op) (outs : list Out) : list ref :=
  match prog, outs with
  | op_child self _ _ _ :: prog', out_ref r :: outs' =>
      if decide (self = a) then r :: children_in a prog' outs'
      else children_in a prog' outs'
  | _ :: prog', _ :: outs' => children_in a prog' outs'
  | _, _ => []
  end.

(** [startAction] picks the parent itself; the other calls name theirs. *)
Definition names_its_parent (o : Op) : bool :=
  match o with
  | op_startAction _ _ _ _ _ => false
  | _ => true
  end.

(** The action a call makes a parent, when the call names it. *)
Definition parents_of (o : Op) : list ref :=
  match o with
  | op_child self _ _ _ => [self]
  | _ => []
  end.

(** The child a call created for [a], when it is [child] on [a]. *)
Definition child_in (a : ref) (o : Op) (v : Out) : list ref :=
  match o, v with
  | op_child self _ _ _, out_ref r => if decide (self = a) then [r] else []
  | _, _ => []
  end.

(** ** States that differ in what no call reads *)






(** ** Sample states *)

(** A state in which nothing has happened yet. *)
Definition initial_state : State :=
  {| actions := ∅; context := ∅; written := [];
     uuid4_source := fun n => "uuid-" +:+ pretty n; uuid4_drawn := 0;
     deferreds := ∅; probed := [] |}.

(** The state a program reaches, or the initial one if it does not return. *)
Definition state_after {A} (m : M A) : State :=
  match m initial_state with
  | Returns _ s => s
  | Raises _ s => s
  | NoObject => initial_state
  end.

(** After [startTask(7, "t:a")]: one root action, reference 0. *)
Definition task_state : State := state_after (startTask 7 "t:a" None ∅).

(** Its action: the start message was written within it. *)
Definition task_action : Action := counted (Action_init 7 "uuid-0" "/" "t:a" None).

(** The same task, entered on thread 0. *)
Definition entered_state : State :=
  state_after (let! a := startTask 7 "t:a" None ∅ in __enter__ 0 a).


Definition boom : Exception :=
  {| exc_module := "exceptions"; exc_name := "ValueError"; exc_text := "boom" |}.

(** Three children of the task, finished out of order in between. *)
Definition children_prog : list Op :=
  [ op_child 0 7 "t:b" None; op_child 0 7 "t:c" None; op_finish 2 None;
    op_child 0 7 "t:d" None; op_finish 1 (Some boom); op_finish 3 None ].

Definition children_outs : list Out :=
  match perform_all children_prog task_state with
  | Returns outs _ => outs
  | _ => []
  end.

Definition children_state : State :=
  match perform_all children_prog task_state with
  | Returns _ s => s
  | _ => task_state
  end.






(** ** The rest of the [Action] methods *)

(** [Action.runCallback]: [self.run(f, result, *args, **kwargs)]. *)
Definition runCallback {A} (t : Tid) (self : ref) (result : PyObj)
    (f : PyObj → M A) : M A :=
  run t self (f result).

(** [with self.context(): body].  The generator pushes, yields to the body
    and pops in its [finally], whether the body returned or raised. *)
Definition context_manager {A} (t : Tid) (self : ref) (body : M A) : M A :=
  do! push t self in
  try_finally body (pop t).

(** [_incrementMessageCounter] called [n] times; the values it returned. *)
Fixpoint _incrementMessageCounter_times (self : ref) (n : nat) : M (list nat) :=
  match n with
  | 0 => ret []
  | S n =>
      let! v := _incrementMessageCounter self in
      let! vs := _incrementMessageCounter_times self n in
      ret (v :: vs)
  end.

(** ** How a call ends *)

(** The call ended, by returning or by raising, in state [s']. *)
Definition ends_in {A} (r : Result A) (s' : State) : Prop :=
  match r with
  | Returns _ s => s = s'
  | Raises _ s => s = s'
  | NoObject => False
  end.

(** The same ending in another state. *)
Definition in_state {A} (r : Result A) (s' : State) : Result A :=
  match r with
  | Returns v _ => Returns v s'
  | Raises e _ => Raises e s'
  | NoObject => NoObject
  end.

(** ** What the calls do to the state, one step at a time *)

(** Every call of the API changes the state by a sequence of these steps:
    a change of the context stacks, of the deferreds or of the probes; a new
    root action; a new child; a start message, counted in its action; the
    first [finish] of an action; a merge into the success fields. *)
Inductive effect : State → State → Prop :=
| effect_context s f : effect s (set_context f s)
| effect_deferreds s f : effect s (set_deferreds f s)
| effect_probed s f : effect s (set_probed f s)
| effect_root s logger type sr :
    effect s
      (set_actions
         <[fresh (dom (actions s)) :=
             Action_init logger (uuid4_source s (uuid4_drawn s)) "/" type sr]>
         (set_uuid4_drawn (S (uuid4_drawn s)) s))
| effect_child s parent P logger type sr :
    actions s !! parent = Some P →
    effect s
      (set_actions
         (fun m => <[fresh (dom (actions s)) := child_of P logger type sr]>
                     (<[parent := set_numberOfChildren (S (_numberOfChildren P)) P]> m))
         s)
| effect_start s r A fields :
    actions s !! r = Some A →
    effect s (wrote (start_message A fields) (_logger A) r
                (set_actions <[r := counted A]> s))
| effect_finish s r A e :
    actions s !! r = Some A → _finished A = false →
    effect s (wrote (finish_message A e) (_logger A) r
                (set_actions <[r := finished_action A e]> s))
| effect_success s r A fields :
    actions s !! r = Some A →
    effect s (set_actions <[r := set_successFields fields A]> s).

(** Equality of field values is decidable. *)
#[global] Instance PyVal_eq_dec : EqDecision PyVal.
Proof. solve_decision. Defined.

(** The status a message carries. *)
Definition status_of (w : Written) : option PyVal :=
  contents (w_message w) !! "action_status".


(** A computation all of whose endings are reached by such steps. *)
Definition traced {A} (m : M A) : Prop :=
  ∀ s s', ends_in (m s) s' → rtc effect s s'.

(** ** What no call undoes *)

(** From [s] to [s']: every action is still there and kept its
    identification, logger and serializers; no child count went down and no
    action became unfinished; the log only grew at its end; [uuid4] was only
    drawn from. *)
Definition kept (s s' : State) : Prop :=
  (∀ r A, actions s !! r = Some A →
     ∃ A', actions s' !! r = Some A' ∧
           _identification A' = _identification A ∧
           _logger A' = _logger A ∧
           _serializers A' = _serializers A ∧
           (_numberOfChildren A ≤ _numberOfChildren A')%nat ∧
           (_finished A = true → _finished A' = true)) ∧
  (∃ more, written s' = written s ++ more) ∧
  uuid4_source s' = uuid4_source s ∧
  (uuid4_drawn s ≤ uuid4_drawn s')%nat.

(** ** What the log holds *)

(** A message of the log is sound in a state: its action exists, it went to
    that action's logger and carries that action's identification, and it is
    either a start message with the start serializer, or the finish message
    of a finished action: a success message with the success serializer, or a
    failure message with the failure serializer and the two exception
    fields. *)
Definition sound_in (s : State) (w : Written) : Prop :=
  ∃ A, actions s !! w_action w = Some A ∧
       w_logger w = _logger A ∧
       contents (w_message w) !! "task_uuid" =
         Some (PyStr (task_uuid (_identification A))) ∧
       contents (w_message w) !! "task_level" =
         Some (PyStr (task_level (_identification A))) ∧
       contents (w_message w) !! "action_type" =
         Some (PyStr (action_type (_identification A))) ∧
       ((status_of w = Some (PyStr "started") ∧
         serializer (w_message w) = pick start (_serializers A)) ∨
        (status_of w = Some (PyStr "succeeded") ∧
         serializer (w_message w) = pick success (_serializers A) ∧
         _finished A = true) ∨
        (status_of w = Some (PyStr "failed") ∧
         serializer (w_message w) = pick failure (_serializers A) ∧
         _finished A = true ∧
         is_Some (contents (w_message w) !! "exception") ∧
         is_Some (contents (w_message w) !! "reason"))).

Definition log_sound (s : State) : Prop :=
  ∀ w, w ∈ written s → sound_in s w.


(** ** A sample run *)

(** A task, a child finished with an exception inside the task's scope, the
    end of the scope, and one [pop] too many, which raises. *)
Definition sample_prog : list Op :=
  [ op_startAction 0 7 "t:a" None ∅; op_enter 0 0;
    op_startAction 0 7 "t:b" None {["x" := PyInt 1]};
    op_addSuccessFields 1 {["y" := PyInt 2]};
    op_finish 1 (Some boom); op_finish 1 None;
    op_exit 0 0 None; op_pop 0; op_finish 0 (Some boom) ].

Definition sample_state : State := state_after (perform_all sample_prog).

(** The calls that push or pop. *)
Definition moves_stack (o : Op) : bool :=
  match o with
  | op_push _ _ | op_pop _ | op_enter _ _ | op_exit _ _ _ => true
  | _ => false
  end.

(** A computation that leaves the context stacks as they are. *)
Definition still {A} (m : M A) : Prop :=
  ∀ s s', ends_in (m s) s' → context s' = context s.

(** ** Levels and paths *)

(** The level of the action at a path of child numbers: ["/"] for the root,
    and for a child the parent's level, the child's number and a slash, as
    [child] builds it. *)
Definition render (path : list nat) : string :=
  foldl (fun level i => level +:+ pretty i +:+ "/") "/" path.

(** The part of a level after its first slash. *)
Fixpoint segments (path : list nat) : string :=
  match path with
  | [] => ""
  | i :: rest => pretty i +:+ "/" +:+ segments rest
  end.

(** A string without a slash. *)
Fixpoint slash_free (s : string) : bool :=
  match s with
  | EmptyString => true
  | String c rest => negb (Ascii.eqb c "/"%char) && slash_free rest
  end.

(** What the tree of a task needs of an action: [task_uuid], [task_level]
    and the number of children. *)
Definition node (A : Action) : string * string * nat :=
  (task_uuid (_identification A), task_level (_identification A),
   _numberOfChildren A).

(** In the nodes [m], reference [r] is the action of task [u] at [path], and
    it has [k] children. *)
Definition at_path (m : gmap ref (string * string * nat)) (u : string)
    (path : list nat) (r : ref) (k : nat) : Prop :=
  m !! r = Some (u, render path, k).

(** The nodes form the trees of their tasks: every node is at a path of a
    task whose uuid was drawn; the parent of a node is there and counts it
    among its children; every child a node counts is there; and no two nodes
    of a task are at the same path. *)
Definition tree_shaped (source : nat → string) (drawn : nat)
    (m : gmap ref (string * string * nat)) : Prop :=
  (∀ r u level k, m !! r = Some (u, level, k) →
     ∃ n path, (n < drawn)%nat ∧ u = source n ∧ level = render path) ∧
  (∀ u path i r k, at_path m u (path ++ [i]) r k →
     ∃ p kp, at_path m u path p kp ∧ (1 ≤ i ≤ kp)%nat) ∧
  (∀ u path i p kp, at_path m u path p kp → (1 ≤ i ≤ kp)%nat →
     ∃ r k, at_path m u (path ++ [i]) r k) ∧
  (∀ u path r k r' k', at_path m u path r k → at_path m u path r' k' → r = r').

(** The nodes of a state. *)
Definition nodes (s : State) : gmap ref (string * string * nat) :=
  node <$> actions s.

(** ** Threads *)

(** The thread whose stack a call reads or changes, if any. *)
Definition thread_of (o : Op) : option Tid :=
  match o with
  | op_push t _ | op_pop t | op_current t | op_enter t _ | op_exit t _ _
  | op_startAction t _ _ _ _ => Some t
  | _ => None
  end.

(** A computation that leaves the stack of thread [t] as it is. *)
Definition quiet {A} (t : Tid) (m : M A) : Prop :=
  ∀ s s', ends_in (m s) s' → stack_of s' t = stack_of s t.

(** Calls made on thread 1 while the task is entered on thread 0; the last
    one pops an empty stack. *)
Definition other_thread_prog : list Op :=
  [ op_enter 1 0; op_startAction 1 7 "t:b" None ∅; op_exit 1 0 None; op_pop 1 ].

Definition other_thread_state : State :=
  match perform_all other_thread_prog entered_state with
  | Returns _ s => s
  | Raises _ s => s
  | NoObject => entered_state
  end.

(** ** The life of an action in the log *)






(** ** The message counter and the log *)


(** * Properties *)

(** ** Field mappings *)

(** Looking a key up in a chain of stores. *)
Ltac read_field :=
  repeat (rewrite lookup_insert_eq || (rewrite lookup_insert_ne by discriminate)).

Lemma update_identification (d : Fields) (i : Identification) :
  update d (identification_dict i) =
  <["task_uuid" := PyStr (task_uuid i)]>
    (<["task_level" := PyStr (task_level i)]>
       (<["action_type" := PyStr (action_type i)]> d)).
Proof.
  unfold update, identification_dict.
  rewrite <- !insert_union_l. by rewrite (left_id ∅ (∪)).
Qed.

(** ** The methods, one equation each *)

Lemma Message_write_eq (s : State) (m : Message) (logger : Logger) (r : ref)
    (A : Action) :
  actions s !! r = Some A →
  Message_write m logger r s =
  Returns tt (wrote m logger r (set_actions <[r := counted A]> s)).
Proof.
  intros H. unfold Message_write, _incrementMessageCounter, bind, deref.
  by rewrite H.
Qed.

Lemma _start_eq (s : State) (self : ref) (A : Action) (fields : Fields) :
  actions s !! self = Some A →
  _start self fields s =
  Returns tt (wrote (start_message A fields) (_logger A) self
                (set_actions <[self := counted A]> s)).
Proof.
  intros H. unfold _start. unfold bind at 1. unfold deref. rewrite H.
  rewrite (Message_write_eq _ _ _ _ A) by done.
  unfold start_message, setitem. by rewrite update_identification.
Qed.

Lemma finish_finished (s : State) (self : ref) (A : Action) (e : option Exception) :
  actions s !! self = Some A → _finished A = true →
  finish self e s = Returns tt s.
Proof.
  intros H Hf. unfold finish, bind, deref. rewrite H, Hf. reflexivity.
Qed.

Lemma finish_eq (s : State) (self : ref) (A : Action) (e : option Exception) :
  actions s !! self = Some A → _finished A = false →
  finish self e s =
  Returns tt (wrote (finish_message A e) (_logger A) self
                (set_actions <[self := finished_action A e]> s)).
Proof.
  intros H Hf. unfold finish. unfold bind at 1. unfold deref. rewrite H, Hf.
  unfold bind at 1. unfold assign.
  destruct e as [e|].
  - rewrite (Message_write_eq _ _ _ _ (set_finished true A))
      by (cbn; apply lookup_insert_eq).
    unfold wrote, finish_message, finished_action, failure_fields, safeunicode,
      setitem, set_actions, set_written; cbn.
    by rewrite update_identification, insert_insert_eq.
  - unfold bind at 1.
    rewrite (Message_write_eq _ _ _ _
               (set_successFields
                  (update (setitem "action_status" (PyStr "succeeded")
                             (_successFields (set_finished true A)))
                     (identification_dict (_identification (set_finished true A))))
                  (set_finished true A)))
      by (cbn; apply lookup_insert_eq).
    unfold wrote, finish_message, finished_action, setitem, set_actions,
      set_written; cbn.
    by rewrite update_identification, !insert_insert_eq.
Qed.

Lemma addSuccessFields_eq (s : State) (self : ref) (A : Action) (fields : Fields) :
  actions s !! self = Some A →
  addSuccessFields self fields s =
  Returns tt (set_actions <[self := set_successFields (fields ∪ _successFields A) A]> s).
Proof.
  intros H. unfold addSuccessFields, bind, deref. by rewrite H.
Qed.

Lemma child_eq (s : State) (self : ref) (A : Action) (logger : Logger)
    (type : string) (serializers : option _ActionSerializers) :
  actions s !! self = Some A →
  child self logger type serializers s =
  Returns (fresh (dom (actions s)))
    (set_actions
       (fun m => <[fresh (dom (actions s)) := child_of A logger type serializers]>
                   (<[self := set_numberOfChildren (S (_numberOfChildren A)) A]> m)) s).
Proof.
  intros H. unfold child, bind, deref. rewrite H. unfold assign, new; cbn.
  assert (Hd : dom (<[self := set_numberOfChildren (_numberOfChildren A + 1) A]> (actions s))
               = dom (actions s)).
  { rewrite dom_insert_L. apply elem_of_dom_2 in H.
    apply set_eq. intros x. rewrite elem_of_union, elem_of_singleton.
    split; [intros [->|]; done | by right]. }
  rewrite Hd. unfold child_of. by rewrite Nat.add_1_r.
Qed.

Lemma fresh_ref_None (s : State) : actions s !! fresh (dom (actions s)) = None.
Proof. apply not_elem_of_dom. apply is_fresh. Qed.

Lemma fresh_ref_ne (s : State) (r : ref) (A : Action) :
  actions s !! r = Some A → fresh (dom (actions s)) ≠ r.
Proof. intros H E. rewrite <- E, fresh_ref_None in H. discriminate. Qed.

(** ** The execution context *)

Lemma stack_of_set_context (s : State) (t t' : Tid) (l : list ref) :
  stack_of (set_context <[t := l]> s) t' = if decide (t = t') then l else stack_of s t'.
Proof.
  unfold stack_of; cbn. rewrite lookup_insert. by case_decide.
Qed.

Lemma stack_of_set_actions (s : State) f (t : Tid) :
  stack_of (set_actions f s) t = stack_of s t.
Proof. reflexivity. Qed.

Lemma stack_of_wrote (s : State) m lg r (t : Tid) :
  stack_of (wrote m lg r s) t = stack_of s t.
Proof. reflexivity. Qed.

Lemma current_eq (s : State) (t : Tid) : current t s = Returns (last (stack_of s t)) s.
Proof. unfold current. by destruct (stack_of s t). Qed.

Lemma pop_snoc (s : State) (t : Tid) (l : list ref) (a : ref) :
  stack_of s t = l ++ [a] →
  pop t s = Returns tt (set_context <[t := l]> s).
Proof.
  intros H. unfold pop. rewrite H. rewrite removelast_last.
  by destruct l.
Qed.

Lemma pop_empty (s : State) (t : Tid) :
  stack_of s t = [] → pop t s = Raises IndexError s.
Proof. intros H. unfold pop. by rewrite H. Qed.

Lemma last_snoc_ref (l : list ref) (a : ref) : last (l ++ [a]) = Some a.
Proof. apply last_snoc. Qed.

(** ** [startTask] and [startAction], one equation each *)

Lemma startTask_clash (s : State) (logger : Logger) (type : string)
    (sr : option _ActionSerializers) (fields : Fields) :
  binds fields = false →
  startTask logger type sr fields s = Raises TypeError s.
Proof. intros H. unfold startTask. by rewrite H. Qed.

Lemma startAction_clash (s : State) (t : Tid) (logger : Logger) (type : string)
    (sr : option _ActionSerializers) (fields : Fields) :
  binds fields = false →
  startAction t logger type sr fields s = Raises TypeError s.
Proof. intros H. unfold startAction. by rewrite H. Qed.

Lemma startTask_eq (s : State) (logger : Logger) (type : string)
    (sr : option _ActionSerializers) (fields : Fields) :
  binds fields = true →
  let r := fresh (dom (actions s)) in
  let A := Action_init logger (uuid4_source s (uuid4_drawn s)) "/" type sr in
  startTask logger type sr fields s =
  Returns r (wrote (start_message A fields) logger r
               (set_actions <[r := counted A]>
                  (set_uuid4_drawn (S (uuid4_drawn s)) s))).
Proof.
  intros Hb r A. unfold startTask. rewrite Hb.
  unfold bind, uuid4, new; cbn. fold r. fold A.
  rewrite (_start_eq _ r A) by (cbn; apply lookup_insert_eq).
  unfold wrote, set_actions, set_written; cbn. by rewrite insert_insert_eq.
Qed.

Lemma startAction_root (s : State) (t : Tid) (logger : Logger) (type : string)
    (sr : option _ActionSerializers) (fields : Fields) :
  stack_of s t = [] →
  startAction t logger type sr fields s = startTask logger type sr fields s.
Proof.
  intros H. unfold startAction. destruct (binds fields) eqn:Hb.
  - unfold bind, currentAction. by rewrite current_eq, H.
  - by rewrite startTask_clash.
Qed.



(** ** The execution context is a stack per thread *)

(** C9: the execution context is a last-in-first-out stack per thread.
    [push] appends the action on top of the calling thread's stack and leaves
    the other threads' stacks alone; [current] returns the top, the action
    pushed last and not yet popped, or [None] on an empty stack, and changes
    nothing; [pop] removes the top entry and nothing else, and on an empty
    stack it raises [IndexError] instead of returning. *)
Theorem execution_context_lifo (s : State) (t : Tid) (action : ref) :
  (∃ s1,
      push t action s = Returns tt s1 ∧
      (∀ t', stack_of s1 t' =
             if decide (t = t') then stack_of s t ++ [action] else stack_of s t') ∧
      actions s1 = actions s ∧ written s1 = written s ∧
      current t s1 = Returns (Some action) s1 ∧
      ∃ s2, pop t s1 = Returns tt s2 ∧
            (∀ t', stack_of s2 t' = stack_of s t') ∧
            actions s2 = actions s ∧ written s2 = written s) ∧
  current t s = Returns (last (stack_of s t)) s ∧
  match last (stack_of s t) with
  | None => stack_of s t = [] ∧ pop t s = Raises IndexError s
  | Some top =>
      ∃ s', pop t s = Returns tt s' ∧
            (∀ t', stack_of s t' =
                   if decide (t = t') then stack_of s' t ++ [top] else stack_of s' t') ∧
            actions s' = actions s ∧ written s' = written s
  end.
Proof.
  split; [|split].
  - eexists. split; [reflexivity|].
    assert (Hs : ∀ t', stack_of (set_context <[t := stack_of s t ++ [action]]> s) t' =
                       if decide (t = t') then stack_of s t ++ [action] else stack_of s t').
    { intros t'. apply stack_of_set_context. }
    split; [exact Hs|]. split; [reflexivity|]. split; [reflexivity|].
    split.
    { rewrite current_eq. pose proof (Hs t) as Ht. rewrite decide_True in Ht by done.
      by rewrite Ht, last_snoc_ref. }
    eexists. split.
    { apply (pop_snoc _ t (stack_of s t) action).
      pose proof (Hs t) as Ht. by rewrite decide_True in Ht. }
    split; [|done].
    intros t'. rewrite stack_of_set_context. case_decide as E; [by subst|].
    rewrite Hs. by rewrite decide_False.
  - apply current_eq.
  - destruct (stack_of s t) as [|x l] eqn:E using rev_ind.
    + cbn. split; [done|]. by apply pop_empty.
    + clear IHl. rewrite last_snoc_ref.
      eexists. split; [by apply (pop_snoc _ _ l x)|].
      split; [|done].
      intros t'. case_decide as Et.
      * subst t'. by rewrite stack_of_set_context, decide_True.
      * by rewrite stack_of_set_context, decide_False.
Qed.

(** ** [finish] *)







(** ** Success fields *)


Lemma set_actions_insert_same (s : State) (r : ref) (A : Action) :
  actions s !! r = Some A → set_actions <[r := A]> s = s.
Proof.
  intros H. destruct s; unfold set_actions; cbn in *. by rewrite insert_id.
Qed.

Lemma set_actions_insert_twice (s : State) (r : ref) (A B : Action) :
  set_actions <[r := B]> (set_actions <[r := A]> s) = set_actions <[r := B]> s.
Proof. unfold set_actions; cbn. by rewrite insert_insert_eq. Qed.




(** ** Precedence of the identification *)







(** ** Scopes *)

Lemma enter_eq (s : State) (t : Tid) (self : ref) :
  __enter__ t self s = Returns self (set_context <[t := stack_of s t ++ [self]]> s).
Proof. reflexivity. Qed.


Lemma exit_empty (s : State) (t : Tid) (self : ref) (e : option Exception) :
  stack_of s t = [] → __exit__ t self e s = Raises IndexError s.
Proof.
  intros H. unfold __exit__. unfold bind at 1. by rewrite pop_empty.
Qed.

Lemma stack_of_same (s : State) (t : Tid) (l : list ref) :
  stack_of (set_context <[t := l]> s) t = l.
Proof. by rewrite stack_of_set_context, decide_True. Qed.

Lemma bind_returns {A B} (m : M A) (k : A → M B) (s s1 : State) (v : A) :
  m s = Returns v s1 → bind m k s = k v s1.
Proof. intros H. unfold bind. by rewrite H. Qed.


(** ** [startAction] *)



(** ** What the calls leave alone *)

Lemma bind_returns_inv {A B} (m : M A) (k : A → M B) (s s' : State) (v : B) :
  bind m k s = Returns v s' →
  ∃ x s1, m s = Returns x s1 ∧ k x s1 = Returns v s'.
Proof.
  unfold bind. destruct (m s) as [x s1| |]; [|done..]. intros H. by exists x, s1.
Qed.

Lemma undisturbed_refl (s : State) : undisturbed s s.
Proof. intros r A H. by exists A. Qed.

Lemma undisturbed_trans (s1 s2 s3 : State) :
  undisturbed s1 s2 → undisturbed s2 s3 → undisturbed s1 s3.
Proof.
  intros H12 H23 r A H.
  destruct (H12 r A H) as (A2 & H2 & Hi2 & Hn2 & Hf2).
  destruct (H23 r A2 H2) as (A3 & H3 & Hi3 & Hn3 & Hf3).
  exists A3. split; [done|]. split; [congruence|]. split; [congruence|]. auto.
Qed.

Lemma undisturbed_same_actions (s s' : State) :
  actions s' = actions s → undisturbed s s'.
Proof. intros E r A H. exists A. by rewrite E. Qed.

Lemma undisturbed_assign (s : State) (r : ref) (A X : Action) :
  actions s !! r = Some A →
  _identification X = _identification A →
  _numberOfChildren X = _numberOfChildren A →
  (_finished A = true → _finished X = true) →
  undisturbed s (set_actions <[r := X]> s).
Proof.
  intros H Hi Hn Hf r' A' H'. cbn.
  destruct (decide (r = r')) as [<-|Hne].
  - rewrite lookup_insert_eq. exists X. rewrite H in H'. by simplify_eq.
  - rewrite lookup_insert_ne by done. by exists A'.
Qed.

Lemma undisturbed_new (s : State) (X : Action) :
  undisturbed s (set_actions <[fresh (dom (actions s)) := X]> s).
Proof.
  intros r A H. cbn. rewrite lookup_insert_ne by (by apply (fresh_ref_ne s r A)).
  by exists A.
Qed.

Lemma undisturbed_grown (s s' : State) : undisturbed s s' ↔ grown [] s s'.
Proof.
  unfold undisturbed, grown, count_of. cbn.
  split; intros H r A Hr; destruct (H r A Hr) as (A' & ? & ? & ? & ?);
    exists A'; repeat split; auto; lia.
Qed.

Lemma count_of_app (r : ref) (l1 l2 : list ref) :
  count_of r (l1 ++ l2) = count_of r l1 + count_of r l2.
Proof. unfold count_of. by rewrite filter_app, length_app. Qed.

Lemma grown_trans (l1 l2 : list ref) (s1 s2 s3 : State) :
  grown l1 s1 s2 → grown l2 s2 s3 → grown (l1 ++ l2) s1 s3.
Proof.
  intros H12 H23 r A H.
  destruct (H12 r A H) as (A2 & H2 & Hi2 & Hn2 & Hf2).
  destruct (H23 r A2 H2) as (A3 & H3 & Hi3 & Hn3 & Hf3).
  exists A3. split; [done|]. split; [congruence|].
  split; [rewrite count_of_app; lia | auto].
Qed.

Lemma push_undisturbed t a s v s' : push t a s = Returns v s' → undisturbed s s'.
Proof. intros [= _ <-]. by apply undisturbed_same_actions. Qed.

Lemma pop_undisturbed t s v s' : pop t s = Returns v s' → undisturbed s s'.
Proof.
  unfold pop. destruct (stack_of s t); [done|].
  intros [= _ <-]. by apply undisturbed_same_actions.
Qed.

Lemma current_undisturbed t s v s' : current t s = Returns v s' → undisturbed s s'.
Proof. rewrite current_eq. intros [= _ <-]. apply undisturbed_refl. Qed.

Lemma _start_undisturbed self fields s v s' :
  _start self fields s = Returns v s' → undisturbed s s'.
Proof.
  destruct (actions s !! self) as [A|] eqn:H.
  - rewrite (_start_eq _ _ A) by done. intros [= _ <-].
    apply (undisturbed_trans _ (set_actions <[self := counted A]> s)).
    + by apply (undisturbed_assign _ _ A).
    + by apply undisturbed_same_actions.
  - unfold _start, bind, deref. by rewrite H.
Qed.

Lemma finish_undisturbed self e s v s' :
  finish self e s = Returns v s' → undisturbed s s'.
Proof.
  destruct (actions s !! self) as [A|] eqn:H.
  - destruct (_finished A) eqn:Hf.
    + rewrite (finish_finished _ _ A) by done. intros [= _ <-]. apply undisturbed_refl.
    + rewrite (finish_eq _ _ A) by done. intros [= _ <-].
      apply (undisturbed_trans _ (set_actions <[self := finished_action A e]> s)).
      * apply (undisturbed_assign _ _ A); [done|by destruct e..].
      * by apply undisturbed_same_actions.
  - unfold finish, bind, deref. by rewrite H.
Qed.

Lemma addSuccessFields_undisturbed self fields s v s' :
  addSuccessFields self fields s = Returns v s' → undisturbed s s'.
Proof.
  destruct (actions s !! self) as [A|] eqn:H.
  - rewrite (addSuccessFields_eq _ _ A) by done. intros [= _ <-].
    by apply (undisturbed_assign _ _ A).
  - unfold addSuccessFields, bind, deref. by rewrite H.
Qed.

Lemma enter_undisturbed t self s v s' :
  __enter__ t self s = Returns v s' → undisturbed s s'.
Proof. rewrite enter_eq. intros [= _ <-]. by apply undisturbed_same_actions. Qed.

Lemma exit_undisturbed t self e s v s' :
  __exit__ t self e s = Returns v s' → undisturbed s s'.
Proof.
  unfold __exit__. intros H.
  apply bind_returns_inv in H as (? & s1 & H1 & H).
  apply bind_returns_inv in H as (? & s2 & H2 & H).
  injection H as _ <-.
  eapply undisturbed_trans; [by eapply pop_undisturbed | by eapply finish_undisturbed].
Qed.

Lemma finishAfter_undisturbed self d s v s' :
  finishAfter self d s = Returns v s' → undisturbed s s'.
Proof.
  unfold finishAfter, addBoth. destruct (deferreds s !! d); [|done].
  intros [= _ <-]. by apply undisturbed_same_actions.
Qed.

Lemma run_callbacks_undisturbed cbs result s v s' :
  run_callbacks cbs result s = Returns v s' → undisturbed s s'.
Proof.
  revert result s. induction cbs as [|cb cbs IH]; intros result s; cbn.
  - intros [= _ <-]. apply undisturbed_refl.
  - intros H. apply bind_returns_inv in H as (x & s1 & H1 & H).
    eapply undisturbed_trans; [|by eapply IH].
    destruct cb as [self|tag]; cbn in H1.
    + unfold done in H1. apply bind_returns_inv in H1 as (? & s2 & H2 & H1).
      injection H1 as _ <-. by eapply finish_undisturbed.
    + injection H1 as _ <-. by apply undisturbed_same_actions.
Qed.

Lemma fire_undisturbed d result s v s' :
  fire d result s = Returns v s' → undisturbed s s'.
Proof.
  unfold fire. destruct (deferreds s !! d); [|done]. intros H.
  eapply undisturbed_trans; [|by eapply run_callbacks_undisturbed].
  by apply undisturbed_same_actions.
Qed.

Lemma startTask_undisturbed logger type sr fields s v s' :
  startTask logger type sr fields s = Returns v s' → undisturbed s s'.
Proof.
  destruct (binds fields) eqn:Hb; [|by rewrite startTask_clash].
  pose proof (startTask_eq s logger type sr fields Hb) as E. cbv zeta in E.
  rewrite E. intros [= _ <-].
  eapply undisturbed_trans; [|by apply undisturbed_same_actions].
  apply (undisturbed_new (set_uuid4_drawn (S (uuid4_drawn s)) s)).
Qed.

Lemma count_of_singleton (r p : ref) :
  count_of r [p] = if decide (p = r) then 1 else 0.
Proof.
  unfold count_of. rewrite filter_cons, filter_nil. by case_decide.
Qed.

Lemma child_grown self logger type sr s v s' :
  child self logger type sr s = Returns v s' → grown [self] s s'.
Proof.
  destruct (actions s !! self) as [A|] eqn:H.
  - rewrite (child_eq _ _ A) by done. intros [= _ <-].
    intros r R Hr. rewrite count_of_singleton.
    change (actions (set_actions ?f s)) with (f (actions s)).
    cbv beta.
    rewrite lookup_insert_ne by (by apply (fresh_ref_ne s r R)).
    destruct (decide (self = r)) as [<-|Hne].
    + rewrite lookup_insert_eq. rewrite H in Hr. simplify_eq.
      eexists. split; [done|]. cbn. repeat split; auto; lia.
    + rewrite lookup_insert_ne by done. exists R.
      repeat split; auto; lia.
  - unfold child, bind, deref. by rewrite H.
Qed.

Lemma lift_returns_inv {A} (f : A → Out) (m : M A) (s s' : State) (v : Out) :
  lift f m s = Returns v s' → ∃ x, m s = Returns x s' ∧ v = f x.
Proof.
  unfold lift. intros H. apply bind_returns_inv in H as (x & s1 & H1 & H).
  injection H as <- <-. by exists x.
Qed.

Lemma perform_grown (o : Op) (s s' : State) (v : Out) :
  names_its_parent o = true →
  perform o s = Returns v s' → grown (parents_of o) s s'.
Proof.
  intros Ho H. destruct o; try discriminate Ho; cbn [perform] in H;
    apply lift_returns_inv in H as (x & H & _); cbn [parents_of];
    try apply undisturbed_grown.
  - by eapply push_undisturbed.
  - by eapply pop_undisturbed.
  - by eapply current_undisturbed.
  - by eapply _start_undisturbed.
  - by eapply finish_undisturbed.
  - by eapply child_grown.
  - by eapply addSuccessFields_undisturbed.
  - by eapply enter_undisturbed.
  - by eapply exit_undisturbed.
  - by eapply finishAfter_undisturbed.
  - by eapply fire_undisturbed.
  - by eapply startTask_undisturbed.
Qed.

Lemma startAction_grown t logger type sr fields s v s' :
  startAction t logger type sr fields s = Returns v s' → ∃ l, grown l s s'.
Proof.
  destruct (binds fields) eqn:Hb; [|by rewrite startAction_clash].
  unfold startAction, currentAction. rewrite Hb. intros H.
  apply bind_returns_inv in H as (p & s1 & H1 & H).
  rewrite current_eq in H1. injection H1 as <- <-.
  destruct (last (stack_of s t)) as [p|].
  - apply bind_returns_inv in H as (c & s1 & H1 & H).
    apply bind_returns_inv in H as (? & s2 & H2 & H). injection H as _ <-.
    exists ([p] ++ []). eapply grown_trans; [by eapply child_grown|].
    apply undisturbed_grown. by eapply _start_undisturbed.
  - exists []. apply undisturbed_grown. by eapply startTask_undisturbed.
Qed.

Lemma perform_some_grown (o : Op) (s s' : State) (v : Out) :
  perform o s = Returns v s' → ∃ l, grown l s s'.
Proof.
  destruct (names_its_parent o) eqn:Ho.
  - intros H. eexists. by eapply perform_grown.
  - destruct o; try discriminate Ho. cbn [perform]. intros H.
    apply lift_returns_inv in H as (x & H & _). by eapply startAction_grown.
Qed.

Lemma perform_all_cons_inv (o : Op) (prog : list Op) (s s' : State) (outs : list Out) :
  perform_all (o :: prog) s = Returns outs s' →
  ∃ v vs s1, perform o s = Returns v s1 ∧ perform_all prog s1 = Returns vs s' ∧
             outs = v :: vs.
Proof.
  cbn. intros H. apply bind_returns_inv in H as (v & s1 & H1 & H).
  apply bind_returns_inv in H as (vs & s2 & H2 & H). injection H as <- <-.
  by exists v, vs, s1.
Qed.

Lemma perform_all_some_grown (prog : list Op) (s s' : State) (outs : list Out) :
  perform_all prog s = Returns outs s' → ∃ l, grown l s s'.
Proof.
  revert s outs. induction prog as [|o prog IH]; intros s outs H.
  - injection H as _ <-. exists []. apply undisturbed_grown, undisturbed_refl.
  - apply perform_all_cons_inv in H as (v & vs & s1 & H1 & H2 & _).
    destruct (perform_some_grown _ _ _ _ H1) as [l1 G1].
    destruct (IH _ _ H2) as [l2 G2].
    exists (l1 ++ l2). by eapply grown_trans.
Qed.

Lemma children_in_cons (a : ref) (o : Op) (v : Out) (prog : list Op) (outs : list Out) :
  children_in a (o :: prog) (v :: outs) = child_in a o v ++ children_in a prog outs.
Proof.
  destruct o, v; try reflexivity. cbn. by case_decide.
Qed.

Lemma count_of_child_in (a : ref) (o : Op) (s s' : State) (v : Out) :
  perform o s = Returns v s' → count_of a (parents_of o) = length (child_in a o v).
Proof.
  destruct o; try reflexivity. cbn [perform]. intros H.
  apply lift_returns_inv in H as (x & _ & ->). cbn [parents_of child_in].
  rewrite count_of_singleton. by case_decide.
Qed.

Lemma child_in_created (a : ref) (A : Action) (o : Op) (s s' : State) (v : Out) (rc : ref) :
  actions s !! a = Some A →
  perform o s = Returns v s' →
  rc ∈ child_in a o v →
  ∃ C, actions s' !! rc = Some C ∧
       task_uuid (_identification C) = task_uuid (_identification A) ∧
       task_level (_identification C) =
         task_level (_identification A) +:+ pretty (S (_numberOfChildren A)) +:+ "/".
Proof.
  intros HA H Hin. destruct o; try (by apply elem_of_nil in Hin).
  cbn [perform] in H. apply lift_returns_inv in H as (x & H & ->).
  cbn [child_in] in Hin.
  case_decide as E; [subst self | by apply elem_of_nil in Hin].
  apply list_elem_of_singleton in Hin as ->.
  rewrite (child_eq _ _ A) in H by done. injection H as <- <-.
  eexists. split; [cbn; apply lookup_insert_eq|]. by split.
Qed.

Lemma children_in_levels (prog : list Op) (s s' : State) (outs : list Out)
    (a : ref) (A : Action) :
  forallb names_its_parent prog = true →
  actions s !! a = Some A →
  perform_all prog s = Returns outs s' →
  ∃ A', actions s' !! a = Some A' ∧
        _identification A' = _identification A ∧
        _numberOfChildren A' =
          _numberOfChildren A + length (children_in a prog outs) ∧
        ∀ j rc, children_in a prog outs !! j = Some rc →
          ∃ C, actions s' !! rc = Some C ∧
               task_uuid (_identification C) = task_uuid (_identification A) ∧
               task_level (_identification C) =
                 task_level (_identification A) +:+
                 pretty (_numberOfChildren A + S j) +:+ "/".
Proof.
  revert s outs A. induction prog as [|o prog IH]; intros s outs A Hp HA H.
  - injection H as <- <-. exists A. cbn. rewrite Nat.add_0_r.
    repeat split; try done.
  - apply perform_all_cons_inv in H as (v & vs & s1 & H1 & H2 & ->).
    cbn in Hp. apply andb_prop in Hp as [Ho Hp].
    destruct (perform_grown _ _ _ _ Ho H1 a A HA) as (A1 & HA1 & Hi1 & Hn1 & _).
    destruct (IH _ _ A1 Hp HA1 H2) as (A' & HA' & Hi' & Hn' & Hkids).
    exists A'. split; [done|]. split; [congruence|].
    rewrite children_in_cons, length_app.
    rewrite (count_of_child_in a _ _ _ _ H1) in Hn1.
    split; [lia|].
    intros j rc Hj. apply lookup_app_Some in Hj as [Hj|[Hlen Hj]].
    + (* the child this call created *)
      assert (Hin : rc ∈ child_in a o v) by (by eapply list_elem_of_lookup_2).
      assert (j = 0) as ->.
      { apply lookup_lt_Some in Hj. destruct o, v; cbn in Hj; try lia.
        case_decide; cbn in Hj; lia. }
      destruct (child_in_created _ _ _ _ _ _ _ HA H1 Hin) as (C & HC & Hu & Hl).
      destruct (perform_all_some_grown _ _ _ _ H2) as [l G].
      destruct (G rc C HC) as (C' & HC' & HiC & _).
      exists C'. split; [done|]. rewrite HiC, Hu, Hl, Nat.add_1_r. done.
    + (* a child of a later call *)
      destruct (Hkids _ _ Hj) as (C & HC & Hu & Hl).
      exists C. split; [done|]. rewrite Hu, Hl, Hi1, Hn1. split; [done|].
      do 3 f_equal. lia.
Qed.

(** ** [child] *)

(** C2: each call to [child] adds one to [_numberOfChildren] of the parent and
    creates a new action, not started, with the parent's [task_uuid] and with
    the parent's [task_level] followed by the decimal rendering of the new
    count and a slash; it writes no message.  So in any program of calls that
    name their action (among them [finish] on any action, in any order), the
    calls to [child] on an action with [n] children return, in order, actions
    whose levels end in [n+1], [n+2], ..., and on a new action in [1], [2],
    ..., all carrying the parent's [task_uuid]. *)
Theorem child_levels (s s' : State) (self : ref) (A : Action) (logger : Logger)
    (type : string) (sr : option _ActionSerializers) (prog : list Op)
    (outs : list Out) :
  actions s !! self = Some A →
  (∃ r s1,
      child self logger type sr s = Returns r s1 ∧
      actions s !! r = None ∧
      actions s1 !! self = Some (set_numberOfChildren (_numberOfChildren A + 1) A) ∧
      actions s1 !! r =
        Some (Action_init logger (task_uuid (_identification A))
                (task_level (_identification A) +:+
                 pretty (_numberOfChildren A + 1) +:+ "/") type sr) ∧
      written s1 = written s) ∧
  (forallb names_its_parent prog = true →
   perform_all prog s = Returns outs s' →
   ∃ A', actions s' !! self = Some A' ∧
         _identification A' = _identification A ∧
         _numberOfChildren A' =
           _numberOfChildren A + length (children_in self prog outs) ∧
         ∀ i r, children_in self prog outs !! i = Some r →
           ∃ C, actions s' !! r = Some C ∧
                task_uuid (_identification C) = task_uuid (_identification A) ∧
                task_level (_identification C) =
                  task_level (_identification A) +:+
                  pretty (_numberOfChildren A + S i) +:+ "/").
Proof.
  intros H. split.
  - eexists _, _. split; [by apply child_eq|].
    split; [apply fresh_ref_None|]. rewrite Nat.add_1_r. split.
    { cbn. rewrite lookup_insert_ne by (by apply (fresh_ref_ne s self A)).
      apply lookup_insert_eq. }
    split; [cbn; apply lookup_insert_eq | reflexivity].
  - intros Hp Hrun. by apply (children_in_levels prog s s' outs).
Qed.

Lemma child_levels_witness :
  actions task_state !! 0 = Some task_action ∧
  forallb names_its_parent children_prog = true ∧
  perform_all children_prog task_state = Returns children_outs children_state ∧
  children_in 0 children_prog children_outs = [1; 2; 3] ∧
  level_of children_state 1 = Some "/1/" ∧
  level_of children_state 2 = Some "/2/" ∧
  level_of children_state 3 = Some "/3/" ∧
  ∃ A', actions children_state !! 0 = Some A' ∧
        _identification A' = _identification task_action ∧
        _numberOfChildren A' =
          _numberOfChildren task_action +
          length (children_in 0 children_prog children_outs) ∧
        ∀ i r, children_in 0 children_prog children_outs !! i = Some r →
          ∃ C, actions children_state !! r = Some C ∧
               task_uuid (_identification C) =
                 task_uuid (_identification task_action) ∧
               task_level (_identification C) =
                 task_level (_identification task_action) +:+
                 pretty (_numberOfChildren task_action + S i) +:+ "/".
Proof.
  assert (H : actions task_state !! 0 = Some task_action) by (vm_compute; reflexivity).
  assert (Hrun : perform_all children_prog task_state =
                 Returns children_outs children_state) by (vm_compute; reflexivity).
  split; [exact H|]. split; [reflexivity|]. split; [exact Hrun|].
  split; [vm_compute; reflexivity|]. split; [vm_compute; reflexivity|].
  split; [vm_compute; reflexivity|]. split; [vm_compute; reflexivity|].
  exact (proj2 (child_levels task_state children_state 0 task_action 7 "t:b" None
                  children_prog children_outs H) eq_refl Hrun).
Defined.

(** ** Leaving a scope *)

Lemma with_eq (s s1 : State) (t : Tid) (self target : ref) (body : ref → M unit) :
  __enter__ t self s = Returns target s1 →
  with_ t self body s =
  match body target s1 with
  | Returns _ s2 => (do! __exit__ t self None in ret tt) s2
  | Raises e s2 =>
      match __exit__ t self (Some e) s2 with
      | Returns v s3 => if truthy v then Returns tt s3 else Raises e s3
      | Raises e' s3 => Raises e' s3
      | NoObject => NoObject
      end
  | NoObject => NoObject
  end.
Proof. intros H. unfold with_. by rewrite (bind_returns _ _ _ _ _ H). Qed.




(** ** [finishAfter] *)



(** ** Success fields after [finish] *)





















































(** ** [finish] is idempotent *)




(** * The rest of the module *)

(** ** Every call is a sequence of steps *)

Lemma bind_ends_inv {A B} (m : M A) (k : A → M B) (s s' : State) :
  ends_in (bind m k s) s' →
  (∃ e, m s = Raises e s') ∨ ∃ x s1, m s = Returns x s1 ∧ ends_in (k x s1) s'.
Proof.
  unfold bind. destruct (m s) as [x s1|e s1|]; cbn; [|intros <-|done].
  - intros H. right. by exists x, s1.
  - left. by exists e.
Qed.

Lemma traced_ret {A} (v : A) : traced (ret v).
Proof. intros s s' <-. apply rtc_refl. Qed.

Lemma traced_raise {A} (e : Exception) : traced (@raise A e).
Proof. intros s s' <-. apply rtc_refl. Qed.

Lemma traced_bind {A B} (m : M A) (k : A → M B) :
  traced m → (∀ v, traced (k v)) → traced (bind m k).
Proof.
  intros Hm Hk s s' H. apply bind_ends_inv in H as [[e H]|(x & s1 & H1 & H)].
  - apply Hm. by rewrite H.
  - eapply rtc_trans; [apply Hm; by rewrite H1 | by eapply Hk].
Qed.

Lemma traced_try_finally {A} (body : M A) (cleanup : M unit) :
  traced body → traced cleanup → traced (try_finally body cleanup).
Proof.
  intros Hb Hc s s' H. unfold try_finally in H.
  destruct (body s) as [v s1|e s1|] eqn:E; [| |done].
  - eapply rtc_trans; [apply Hb; by rewrite E|]. apply Hc.
    by destruct (cleanup s1).
  - eapply rtc_trans; [apply Hb; by rewrite E|]. apply Hc.
    by destruct (cleanup s1).
Qed.

Lemma traced_push t a : traced (push t a).
Proof. intros s s' <-. apply rtc_once, effect_context. Qed.

Lemma traced_pop t : traced (pop t).
Proof.
  intros s s'. unfold pop. destruct (stack_of s t); intros <-.
  - apply rtc_refl.
  - apply rtc_once, effect_context.
Qed.

Lemma traced_current t : traced (current t).
Proof. intros s s'. rewrite current_eq. intros <-. apply rtc_refl. Qed.

Lemma traced__start self fields : traced (_start self fields).
Proof.
  intros s s'. destruct (actions s !! self) as [A|] eqn:H.
  - rewrite (_start_eq _ _ A) by done. intros <-. by apply rtc_once, effect_start.
  - unfold _start, bind, deref. by rewrite H.
Qed.

Lemma traced_finish self e : traced (finish self e).
Proof.
  intros s s'. destruct (actions s !! self) as [A|] eqn:H.
  - destruct (_finished A) eqn:Hf.
    + rewrite (finish_finished _ _ A) by done. intros <-. apply rtc_refl.
    + rewrite (finish_eq _ _ A) by done. intros <-. by apply rtc_once, effect_finish.
  - unfold finish, bind, deref. by rewrite H.
Qed.

Lemma traced_addSuccessFields self fields : traced (addSuccessFields self fields).
Proof.
  intros s s'. destruct (actions s !! self) as [A|] eqn:H.
  - rewrite (addSuccessFields_eq _ _ A) by done. intros <-.
    by apply rtc_once, effect_success.
  - unfold addSuccessFields, bind, deref. by rewrite H.
Qed.

Lemma traced_child self logger type sr : traced (child self logger type sr).
Proof.
  intros s s'. destruct (actions s !! self) as [A|] eqn:H.
  - rewrite (child_eq _ _ A) by done. intros <-. by apply rtc_once, effect_child.
  - unfold child, bind, deref. by rewrite H.
Qed.

Lemma set_actions_insert_insert (s : State) (r : ref) (X Y : Action) :
  set_actions <[r := Y]> (set_actions <[r := X]> s) = set_actions <[r := Y]> s.
Proof. unfold set_actions; cbn. by rewrite insert_insert_eq. Qed.

Lemma traced_startTask logger type sr fields :
  traced (startTask logger type sr fields).
Proof.
  intros s s'. destruct (binds fields) eqn:Hb;
    [|rewrite startTask_clash by done; intros <-; apply rtc_refl].
  pose proof (startTask_eq s logger type sr fields Hb) as E.
  cbv zeta in E. rewrite E. intros <-.
  eapply rtc_l; [apply (effect_root s logger type sr)|].
  rewrite <- (set_actions_insert_insert (set_uuid4_drawn (S (uuid4_drawn s)) s)
                (fresh (dom (actions s)))
                (Action_init logger (uuid4_source s (uuid4_drawn s)) "/" type sr)
                (counted
                   (Action_init logger (uuid4_source s (uuid4_drawn s)) "/" type sr))).
  apply rtc_once.
  apply (effect_start _ _
           (Action_init logger (uuid4_source s (uuid4_drawn s)) "/" type sr)).
  cbn. apply lookup_insert_eq.
Qed.

Lemma traced_startAction t logger type sr fields :
  traced (startAction t logger type sr fields).
Proof.
  unfold startAction. destruct (binds fields); [|apply traced_raise].
  apply traced_bind; [apply traced_current|]. intros [p|].
  - apply traced_bind; [apply traced_child|]. intros a.
    apply traced_bind; [apply traced__start | intros; apply traced_ret].
  - apply traced_startTask.
Qed.

Lemma traced_enter t self : traced (__enter__ t self).
Proof. apply traced_bind; [apply traced_push | intros; apply traced_ret]. Qed.

Lemma traced_exit t self e : traced (__exit__ t self e).
Proof.
  apply traced_bind; [apply traced_pop|]. intros.
  apply traced_bind; [apply traced_finish | intros; apply traced_ret].
Qed.

Lemma traced_run {A} t self (f : M A) : traced f → traced (run t self f).
Proof.
  intros Hf. apply traced_bind; [apply traced_push|]. intros.
  apply traced_try_finally; [done | apply traced_pop].
Qed.

Lemma traced_context_manager {A} t self (body : M A) :
  traced body → traced (context_manager t self body).
Proof.
  intros Hf. apply traced_bind; [apply traced_push|]. intros.
  apply traced_try_finally; [done | apply traced_pop].
Qed.

Lemma traced_with t self (body : ref → M unit) :
  (∀ target, traced (body target)) → traced (with_ t self body).
Proof.
  intros Hb. apply traced_bind; [apply traced_enter|]. intros target s s' H.
  destruct (body target s) as [v s2|e s2|] eqn:E; [| |done].
  - eapply rtc_trans; [apply (Hb target); by rewrite E|].
    revert H. apply (traced_bind (__exit__ t self None) (fun _ => ret tt));
      [apply traced_exit | intros; apply traced_ret].
  - eapply rtc_trans; [apply (Hb target); by rewrite E|].
    apply (traced_exit t self (Some e)).
    destruct (__exit__ t self (Some e) s2) as [v s3|e' s3|]; [|done..].
    by destruct (truthy v).
Qed.

Lemma traced_finishAfter self d : traced (finishAfter self d).
Proof.
  intros s s'. unfold finishAfter, addBoth. destruct (deferreds s !! d); [|done].
  intros <-. apply rtc_once, effect_deferreds.
Qed.

Lemma traced_done self result : traced (done self result).
Proof.
  apply traced_bind; [apply traced_finish | intros; apply traced_ret].
Qed.

Lemma traced_run_callbacks cbs result : traced (run_callbacks cbs result).
Proof.
  revert result. induction cbs as [|cb cbs IH]; intros result; cbn.
  - apply traced_ret.
  - apply traced_bind; [|intros; apply IH].
    destruct cb as [self|tag]; cbn; [apply traced_done|].
    intros s s' <-. apply rtc_once, effect_probed.
Qed.

Lemma traced_fire d result : traced (fire d result).
Proof.
  intros s s'. unfold fire. destruct (deferreds s !! d); [|done]. intros H.
  eapply rtc_l; [apply effect_deferreds|]. by eapply traced_run_callbacks.
Qed.

Lemma traced_lift {A} (f : A → Out) (m : M A) : traced m → traced (lift f m).
Proof. intros H. apply traced_bind; [done | intros; apply traced_ret]. Qed.

Lemma traced_perform (o : Op) : traced (perform o).
Proof.
  destruct o; cbn [perform]; apply traced_lift.
  - apply traced_push.
  - apply traced_pop.
  - apply traced_current.
  - apply traced__start.
  - apply traced_finish.
  - apply traced_child.
  - apply traced_addSuccessFields.
  - apply traced_enter.
  - apply traced_exit.
  - apply traced_finishAfter.
  - apply traced_fire.
  - apply traced_startTask.
  - apply traced_startAction.
Qed.

Lemma traced_perform_all (prog : list Op) : traced (perform_all prog).
Proof.
  induction prog as [|o prog IH]; cbn.
  - apply traced_ret.
  - apply traced_bind; [apply traced_perform|]. intros v.
    apply traced_bind; [apply IH | intros; apply traced_ret].
Qed.

(** ** What no call undoes *)

Lemma kept_refl (s : State) : kept s s.
Proof.
  split; [|split; [exists []; by rewrite app_nil_r | by split]].
  intros r A H. exists A. by repeat split.
Qed.

Lemma kept_trans (s1 s2 s3 : State) : kept s1 s2 → kept s2 s3 → kept s1 s3.
Proof.
  intros (Ha & [m1 Hw] & Hs & Hd) (Ha' & [m2 Hw'] & Hs' & Hd').
  split; [|split; [|split]].
  - intros r A H.
    destruct (Ha r A H) as (A2 & HA2 & ? & ? & ? & ? & ?).
    destruct (Ha' r A2 HA2) as (A3 & HA3 & ? & ? & ? & ? & ?).
    exists A3. repeat split; try congruence; [lia | auto].
  - exists (m1 ++ m2). by rewrite Hw', Hw, app_assoc.
  - congruence.
  - lia.
Qed.

(** A state that differs in one action, which kept what must be kept. *)
Lemma kept_assign (s : State) (r : ref) (A X : Action) :
  actions s !! r = Some A →
  _identification X = _identification A →
  _logger X = _logger A →
  _serializers X = _serializers A →
  (_numberOfChildren A ≤ _numberOfChildren X)%nat →
  (_finished A = true → _finished X = true) →
  kept s (set_actions <[r := X]> s).
Proof.
  intros H Hi Hl Hs Hn Hf.
  split; [|split; [exists []; by rewrite app_nil_r | by split]].
  intros r' A' H'. cbn. destruct (decide (r = r')) as [<-|Hne].
  - rewrite lookup_insert_eq. exists X. rewrite H in H'. by simplify_eq.
  - rewrite lookup_insert_ne by done. exists A'. by repeat split.
Qed.

Lemma kept_same_actions (s s' : State) (more : list Written) :
  actions s' = actions s → written s' = written s ++ more →
  uuid4_source s' = uuid4_source s → (uuid4_drawn s ≤ uuid4_drawn s')%nat →
  kept s s'.
Proof.
  intros Ha Hw Hs Hd. split; [|split; [by exists more | by split]].
  intros r A H. exists A. rewrite Ha. by repeat split.
Qed.

Lemma kept_new (s : State) (X : Action) :
  kept s (set_actions <[fresh (dom (actions s)) := X]> s).
Proof.
  split; [|split; [exists []; by rewrite app_nil_r | by split]].
  intros r A H. cbn. rewrite lookup_insert_ne by (by apply (fresh_ref_ne s r A)).
  exists A. by repeat split.
Qed.

Lemma effect_kept (s s' : State) : effect s s' → kept s s'.
Proof.
  intros [s0 f|s0 f|s0 f|s0 lg ty sr|s0 p P lg ty sr HP|s0 r A fields HA
         |s0 r A e HA Hf|s0 r A fields HA].
  - by apply (kept_same_actions _ _ []); [|rewrite app_nil_r|..].
  - by apply (kept_same_actions _ _ []); [|rewrite app_nil_r|..].
  - by apply (kept_same_actions _ _ []); [|rewrite app_nil_r|..].
  - apply (kept_trans _ (set_uuid4_drawn (S (uuid4_drawn s0)) s0)).
    + apply (kept_same_actions _ _ []); [done|by rewrite app_nil_r|done|cbn; lia].
    + apply (kept_new (set_uuid4_drawn (S (uuid4_drawn s0)) s0)).
  - apply (kept_trans _ (set_actions
             <[p := set_numberOfChildren (S (_numberOfChildren P)) P]> s0)).
    + apply (kept_assign _ _ P); cbn; auto.
    + assert (Hd : dom (<[p := set_numberOfChildren (S (_numberOfChildren P)) P]>
                          (actions s0)) = dom (actions s0)).
      { rewrite dom_insert_L. apply elem_of_dom_2 in HP.
        apply set_eq. intros x. rewrite elem_of_union, elem_of_singleton.
        split; [intros [->|]; done | by right]. }
      pose proof (kept_new (set_actions
             <[p := set_numberOfChildren (S (_numberOfChildren P)) P]> s0)
             (child_of P lg ty sr)) as K.
      cbn in K. rewrite Hd in K. exact K.
  - apply (kept_trans _ (set_actions <[r := counted A]> s0)).
    + by apply (kept_assign _ _ A).
    + by eapply kept_same_actions.
  - apply (kept_trans _ (set_actions <[r := finished_action A e]> s0)).
    + apply (kept_assign _ _ A); [done|by destruct e..].
    + by eapply kept_same_actions.
  - by apply (kept_assign _ _ A).
Qed.

Lemma effects_kept (s s' : State) : rtc effect s s' → kept s s'.
Proof.
  induction 1 as [|s1 s2 s3 H _ IH]; [apply kept_refl|].
  eapply kept_trans; [by apply effect_kept | done].
Qed.

(** ** What the log holds *)

Lemma sound_in_kept (s s' : State) (w : Written) :
  kept s s' → sound_in s w → sound_in s' w.
Proof.
  intros (Ha & _) (A & HA & Hl & Hu & Hlv & Ht & Hst).
  destruct (Ha _ _ HA) as (A' & HA' & Hi & Hl' & Hs & _ & Hf).
  exists A'. rewrite Hi, Hl', Hs.
  split; [done|]. split; [done|]. split; [done|]. split; [done|]. split; [done|].
  destruct Hst as [?|[(?&?&?)|(?&?&?&?&?)]]; [by left|right; left|right; right];
    repeat split; auto.
Qed.

Lemma sound_in_start (s : State) (r : ref) (A : Action) (fields : Fields) :
  actions s !! r = Some A →
  sound_in s {| w_message := start_message A fields; w_logger := _logger A;
                w_action := r |}.
Proof.
  intros H. exists A. unfold status_of. cbn.
  repeat split; try done; try (by read_field). left. by read_field.
Qed.

Lemma sound_in_finish (s : State) (r : ref) (A : Action) (e : option Exception) :
  sound_in (set_actions <[r := finished_action A e]> s)
    {| w_message := finish_message A e; w_logger := _logger A; w_action := r |}.
Proof.
  exists (finished_action A e). unfold status_of. cbn. rewrite lookup_insert_eq.
  destruct e as [e|]; cbn; repeat split; try done; try (by read_field); right.
  - right. repeat split; try done; read_field; by eexists.
  - left. repeat split; try done; by read_field.
Qed.

Lemma log_sound_effect (s s' : State) : effect s s' → log_sound s → log_sound s'.
Proof.
  intros Heff Hl. pose proof (effect_kept _ _ Heff) as K.
  destruct Heff as [s0 f|s0 f|s0 f|s0 lg ty sr|s0 p P lg ty sr HP|s0 r A fields HA
         |s0 r A e HA Hf|s0 r A fields HA];
    intros w Hw; cbn in Hw;
    try (by apply (sound_in_kept _ _ _ K), Hl).
  - apply elem_of_app in Hw as [Hw|Hw]; [by apply (sound_in_kept _ _ _ K), Hl|].
    apply list_elem_of_singleton in Hw as ->.
    apply (sound_in_start _ _ (counted A)). cbn. apply lookup_insert_eq.
  - apply elem_of_app in Hw as [Hw|Hw]; [by apply (sound_in_kept _ _ _ K), Hl|].
    apply list_elem_of_singleton in Hw as ->.
    apply (sound_in_kept (set_actions <[r := finished_action A e]> s0));
      [|apply sound_in_finish].
    by eapply kept_same_actions.
Qed.

Lemma log_sound_effects (s s' : State) : rtc effect s s' → log_sound s → log_sound s'.
Proof. induction 1; eauto using log_sound_effect. Qed.

Lemma log_sound_empty (s : State) : written s = [] → log_sound s.
Proof. intros E w Hw. rewrite E in Hw. by apply elem_of_nil in Hw. Qed.









(** X1: what no program of API calls undoes.  However the program ends, by
    returning or at the first exception, every action that existed before
    still exists with the same identification, logger and serializers, with
    at least as many children, and finished if it was finished; and the log
    afterwards is the log before with messages added at its end. *)
Theorem program_never_undoes (prog : list Op) (s s' : State) (r : ref) (A : Action) :
  ends_in (perform_all prog s) s' →
  actions s !! r = Some A →
  (∃ A', actions s' !! r = Some A' ∧
         _identification A' = _identification A ∧
         _logger A' = _logger A ∧
         _serializers A' = _serializers A ∧
         (_numberOfChildren A ≤ _numberOfChildren A')%nat ∧
         (_finished A = true → _finished A' = true)) ∧
  ∃ more, written s' = written s ++ more.
Proof.
  intros Hrun HA.
  destruct (effects_kept _ _ (traced_perform_all prog s s' Hrun)) as (Ha & Hw & _).
  split; [by apply Ha | done].
Qed.

Lemma program_never_undoes_witness :
  ends_in (perform_all children_prog task_state) children_state ∧
  actions task_state !! 0 = Some task_action ∧
  (∃ A', actions children_state !! 0 = Some A' ∧
         _identification A' = _identification task_action ∧
         _logger A' = _logger task_action ∧
         _serializers A' = _serializers task_action ∧
         (_numberOfChildren task_action ≤ _numberOfChildren A')%nat ∧
         (_finished task_action = true → _finished A' = true)) ∧
  ∃ more, written children_state = written task_state ++ more.
Proof.
  assert (Hrun : ends_in (perform_all children_prog task_state) children_state)
    by (vm_compute; reflexivity).
  assert (HA : actions task_state !! 0 = Some task_action)
    by (vm_compute; reflexivity).
  split; [exact Hrun|]. split; [exact HA|].
  exact (program_never_undoes children_prog task_state children_state 0
           task_action Hrun HA).
Defined.

(** X2: what the log holds.  After any program of API calls on a log that
    was empty, every message of the log belongs to an action of the store,
    went to that action's logger, carries that action's [task_uuid],
    [task_level] and [action_type], and is either a start message with the
    start serializer, or a success message with the success serializer, or a
    failure message with the failure serializer and the fields [exception]
    and [reason]; and the action of a success or failure message is
    finished. *)
Theorem messages_are_sound (prog : list Op) (s s' : State) (w : Written) :
  written s = [] →
  ends_in (perform_all prog s) s' →
  w ∈ written s' →
  ∃ A, actions s' !! w_action w = Some A ∧
       w_logger w = _logger A ∧
       contents (w_message w) !! "task_uuid" =
         Some (PyStr (task_uuid (_identification A))) ∧
       contents (w_message w) !! "task_level" =
         Some (PyStr (task_level (_identification A))) ∧
       contents (w_message w) !! "action_type" =
         Some (PyStr (action_type (_identification A))) ∧
       ((status_of w = Some (PyStr "started") ∧
         serializer (w_message w) = pick start (_serializers A)) ∨
        (status_of w = Some (PyStr "succeeded") ∧
         serializer (w_message w) = pick success (_serializers A) ∧
         _finished A = true) ∨
        (status_of w = Some (PyStr "failed") ∧
         serializer (w_message w) = pick failure (_serializers A) ∧
         _finished A = true ∧
         is_Some (contents (w_message w) !! "exception") ∧
         is_Some (contents (w_message w) !! "reason"))).
Proof.
  intros He Hrun Hw.
  apply (log_sound_effects s s'); [exact (traced_perform_all prog s s' Hrun)| |done].
  by apply log_sound_empty.
Qed.

Lemma messages_are_sound_witness :
  written initial_state = [] ∧
  ends_in (perform_all sample_prog initial_state) sample_state ∧
  length (written sample_state) = 4 ∧
  Forall (sound_in sample_state) (written sample_state).
Proof.
  assert (Hrun : ends_in (perform_all sample_prog initial_state) sample_state)
    by (vm_compute; reflexivity).
  split; [reflexivity|]. split; [exact Hrun|]. split; [vm_compute; reflexivity|].
  apply Forall_forall. intros w Hw.
  exact (messages_are_sound sample_prog initial_state sample_state w eq_refl Hrun Hw).
Defined.



(** ** Running inside an action *)

Lemma try_finally_pop {A} (body : M A) (s1 s2 : State) (t : Tid) (l : list ref)
    (top : ref) :
  ends_in (body s1) s2 →
  stack_of s2 t = l ++ [top] →
  try_finally body (pop t) s1 = in_state (body s1) (set_context <[t := l]> s2).
Proof.
  intros He Hst. unfold try_finally.
  destruct (body s1) as [v s|e s|]; cbn in He; [subst s..|done];
    by rewrite (pop_snoc _ _ l top).
Qed.

Lemma try_finally_pop_empty {A} (body : M A) (s1 s2 : State) (t : Tid) :
  ends_in (body s1) s2 →
  stack_of s2 t = [] →
  try_finally body (pop t) s1 = Raises IndexError s2.
Proof.
  intros He Hst. unfold try_finally.
  destruct (body s1) as [v s|e s|]; cbn in He; [subst s..|done];
    by rewrite pop_empty.
Qed.

(** X4: [run], [runCallback] and [context] scope a computation to the action
    and nothing more.  The computation starts with the action on top of the
    calling thread's stack, so that it is the current action.  When the
    computation ends, by returning or by raising, having left the stack as it
    found it, the call ends the same way, with the same value or exception,
    in the state the computation ended in with the action popped: the stack
    is the one from before the call, no message is written and no action is
    finished by the scoping itself. *)
Theorem scoped_run_restores_context {A} (s s2 : State) (t : Tid) (self : ref)
    (result : PyObj) (f : M A) (g : PyObj → M A) :
  let s1 := set_context <[t := stack_of s t ++ [self]]> s in
  let s3 := set_context <[t := stack_of s t]> s2 in
  stack_of s2 t = stack_of s1 t →
  current t s1 = Returns (Some self) s1 ∧
  stack_of s3 t = stack_of s t ∧
  actions s3 = actions s2 ∧ written s3 = written s2 ∧
  (ends_in (f s1) s2 → run t self f s = in_state (f s1) s3) ∧
  (ends_in (g result s1) s2 → runCallback t self result g s = in_state (g result s1) s3) ∧
  (ends_in (f s1) s2 → context_manager t self f s = in_state (f s1) s3).
Proof.
  intros s1 s3 Hst.
  assert (H1 : stack_of s1 t = stack_of s t ++ [self]) by apply stack_of_same.
  rewrite H1 in Hst.
  split; [by rewrite current_eq, H1, last_snoc_ref|].
  split; [apply stack_of_same|]. split; [done|]. split; [done|].
  split; [|split]; intros He.
  - by apply (try_finally_pop f s1 s2 t (stack_of s t) self).
  - by apply (try_finally_pop (g result) s1 s2 t (stack_of s t) self).
  - by apply (try_finally_pop f s1 s2 t (stack_of s t) self).
Qed.

Lemma scoped_run_restores_context_witness :
  let s1 := set_context <[0 := stack_of task_state 0 ++ [0]]> task_state in
  stack_of s1 0 = stack_of s1 0 ∧
  ends_in (current 0 s1) s1 ∧
  ends_in (@raise (option ref) boom s1) s1 ∧
  run 0 0 (current 0) task_state =
    Returns (Some 0) (set_context <[0 := stack_of task_state 0]> s1) ∧
  runCallback 0 0 (Plain PyNone) (fun _ => current 0) task_state =
    Returns (Some 0) (set_context <[0 := stack_of task_state 0]> s1) ∧
  context_manager 0 0 (@raise (option ref) boom) task_state =
    Raises boom (set_context <[0 := stack_of task_state 0]> s1).
Proof.
  intros s1. split; [reflexivity|]. split; [reflexivity|]. split; [reflexivity|].
  destruct (scoped_run_restores_context task_state s1 0 0 (Plain PyNone)
              (current 0) (fun _ => current 0) eq_refl)
    as (_ & _ & _ & _ & Hrun & Hcb & _).
  destruct (scoped_run_restores_context task_state s1 0 0 (Plain PyNone)
              (@raise (option ref) boom) (fun _ => current 0) eq_refl)
    as (_ & _ & _ & _ & _ & _ & Hctx).
  split; [exact (Hrun eq_refl)|]. split; [exact (Hcb eq_refl) | exact (Hctx eq_refl)].
Defined.



(** ** The message counter *)

Lemma _incrementMessageCounter_eq (s : State) (self : ref) (A : Action) :
  actions s !! self = Some A →
  _incrementMessageCounter self s =
  Returns (_numberOfMessages A)
    (set_actions <[self := set_numberOfMessages (S (_numberOfMessages A)) A]> s).
Proof.
  intros H. unfold _incrementMessageCounter, bind, deref. by rewrite H.
Qed.

Lemma set_numberOfMessages_same (A : Action) :
  set_numberOfMessages (_numberOfMessages A) A = A.
Proof. by destruct A. Qed.

(** X6: the message counter of an action counts from where it stands, one by
    one.  [n] calls of [_incrementMessageCounter] return the next [n]
    numbers in order, advance that action's counter by [n] and change nothing
    else: no other action, no message, no stack.  For an action as [__init__]
    made it the numbers are 0, 1, ..., n-1; a task made by [startTask] has
    drawn 0 for its start message, so there they are 1, 2, ..., n. *)
Theorem message_counter_counts (n : nat) (s : State) (self : ref) (A : Action) :
  actions s !! self = Some A →
  _incrementMessageCounter_times self n s =
  Returns (seq (_numberOfMessages A) n)
    (set_actions <[self := set_numberOfMessages (_numberOfMessages A + n) A]> s).
Proof.
  revert s A. induction n as [|n IH]; intros s A H.
  - cbn. rewrite Nat.add_0_r, set_numberOfMessages_same.
    by rewrite set_actions_insert_same.
  - cbn [_incrementMessageCounter_times seq].
    rewrite (bind_returns _ _ _ _ _ (_incrementMessageCounter_eq s self A H)).
    rewrite (bind_returns _ _ _ _ _
               (IH _ (set_numberOfMessages (S (_numberOfMessages A)) A)
                   (lookup_insert_eq _ _ _))).
    unfold ret. rewrite set_actions_insert_twice. cbn.
    by rewrite Nat.add_succ_r.
Qed.

Lemma message_counter_counts_witness :
  actions task_state !! 0 = Some task_action ∧
  _numberOfMessages task_action = 1 ∧
  _incrementMessageCounter_times 0 3 task_state =
  Returns [1; 2; 3]
    (set_actions <[0 := set_numberOfMessages 4 task_action]> task_state).
Proof.
  assert (HA : actions task_state !! 0 = Some task_action) by (vm_compute; reflexivity).
  split; [exact HA|]. split; [reflexivity|].
  exact (message_counter_counts 3 task_state 0 task_action HA).
Defined.

(** ** Scopes that are not nested *)

(** X7: leaving a scope on an empty stack.  When the body of [with action:]
    ends, by returning or by raising, with the thread's stack empty,
    [__exit__] raises [IndexError] from its [pop] before it reaches [finish]:
    the [with] statement raises [IndexError] in place of whatever the body
    did, in the state the body ended in, so the action is not finished and no
    finish message is written. *)
Theorem exit_on_empty_stack (s s1 s2 : State) (t : Tid) (self target : ref)
    (body : ref → M unit) (e : option Exception) :
  __enter__ t self s = Returns target s1 →
  ends_in (body target s1) s2 →
  stack_of s2 t = [] →
  __exit__ t self e s2 = Raises IndexError s2 ∧
  with_ t self body s = Raises IndexError s2.
Proof.
  intros He Hb Hst. pose proof (exit_empty s2 t self) as Hx.
  split; [by apply Hx|].
  rewrite (with_eq _ _ _ _ _ _ He).
  destruct (body target s1) as [v s0|e' s0|]; cbn in Hb; [subst s0..|done].
  - unfold bind. by rewrite Hx.
  - by rewrite Hx.
Qed.

Lemma exit_on_empty_stack_witness :
  let s1 := set_context <[0 := stack_of task_state 0 ++ [0]]> task_state in
  let s2 := set_context <[0 := []]> s1 in
  __enter__ 0 0 task_state = Returns 0 s1 ∧
  ends_in ((do! pop 0 in @raise unit boom) s1) s2 ∧
  stack_of s2 0 = [] ∧
  __exit__ 0 0 (Some boom) s2 = Raises IndexError s2 ∧
  with_ 0 0 (fun _ => do! pop 0 in raise boom) task_state = Raises IndexError s2 ∧
  written s2 = written task_state ∧
  actions s2 !! 0 = Some task_action.
Proof.
  intros s1 s2.
  assert (Hb : ends_in ((do! pop 0 in @raise unit boom) s1) s2)
    by (vm_compute; reflexivity).
  assert (Hst : stack_of s2 0 = []) by (vm_compute; reflexivity).
  split; [reflexivity|]. split; [exact Hb|]. split; [exact Hst|].
  destruct (exit_on_empty_stack task_state s1 s2 0 0 0
              (fun _ => do! pop 0 in raise boom) (Some boom) eq_refl Hb Hst)
    as [Hx Hw].
  split; [exact Hx|]. split; [exact Hw|]. split; [reflexivity|].
  vm_compute; reflexivity.
Defined.



(** ** Finishing through a deferred, twice *)



(** ** What moves the stack *)

Lemma still_ret {A} (v : A) : still (ret v).
Proof. by intros s s' <-. Qed.

Lemma still_bind {A B} (m : M A) (k : A → M B) :
  still m → (∀ v, still (k v)) → still (bind m k).
Proof.
  intros Hm Hk s s' H. apply bind_ends_inv in H as [[e H]|(x & s1 & H1 & H)].
  - apply Hm. by rewrite H.
  - etrans; [by eapply Hk|]. apply Hm. by rewrite H1.
Qed.

Lemma still_current t : still (current t).
Proof. intros s s'. rewrite current_eq. by intros <-. Qed.

Lemma still__start self fields : still (_start self fields).
Proof.
  intros s s'. destruct (actions s !! self) as [A|] eqn:H.
  - rewrite (_start_eq _ _ A) by done. by intros <-.
  - unfold _start, bind, deref. by rewrite H.
Qed.

Lemma still_finish self e : still (finish self e).
Proof.
  intros s s'. destruct (actions s !! self) as [A|] eqn:H.
  - destruct (_finished A) eqn:Hf.
    + rewrite (finish_finished _ _ A) by done. by intros <-.
    + rewrite (finish_eq _ _ A) by done. by intros <-.
  - unfold finish, bind, deref. by rewrite H.
Qed.

Lemma still_addSuccessFields self fields : still (addSuccessFields self fields).
Proof.
  intros s s'. destruct (actions s !! self) as [A|] eqn:H.
  - rewrite (addSuccessFields_eq _ _ A) by done. by intros <-.
  - unfold addSuccessFields, bind, deref. by rewrite H.
Qed.

Lemma still_child self logger type sr : still (child self logger type sr).
Proof.
  intros s s'. destruct (actions s !! self) as [A|] eqn:H.
  - rewrite (child_eq _ _ A) by done. by intros <-.
  - unfold child, bind, deref. by rewrite H.
Qed.

Lemma still_raise {A} (e : Exception) : still (@raise A e).
Proof. by intros s s' <-. Qed.

Lemma still_startTask logger type sr fields : still (startTask logger type sr fields).
Proof.
  intros s s'. destruct (binds fields) eqn:Hb;
    [|rewrite startTask_clash by done; by intros <-].
  pose proof (startTask_eq s logger type sr fields Hb) as E.
  cbv zeta in E. rewrite E. by intros <-.
Qed.

Lemma still_startAction t logger type sr fields :
  still (startAction t logger type sr fields).
Proof.
  unfold startAction. destruct (binds fields); [|apply still_raise].
  apply still_bind; [apply still_current|]. intros [p|].
  - apply still_bind; [apply still_child|]. intros a.
    apply still_bind; [apply still__start | intros; apply still_ret].
  - apply still_startTask.
Qed.

Lemma still_finishAfter self d : still (finishAfter self d).
Proof.
  intros s s'. unfold finishAfter, addBoth. destruct (deferreds s !! d); [|done].
  by intros <-.
Qed.

Lemma still_run_callbacks cbs result : still (run_callbacks cbs result).
Proof.
  revert result. induction cbs as [|cb cbs IH]; intros result; cbn.
  - apply still_ret.
  - apply still_bind; [|intros; apply IH].
    destruct cb as [self|tag]; cbn.
    + apply still_bind; [apply still_finish | intros; apply still_ret].
    + by intros s s' <-.
Qed.

Lemma still_fire d result : still (fire d result).
Proof.
  intros s s'. unfold fire. destruct (deferreds s !! d); [|done]. intros H.
  by rewrite (still_run_callbacks _ _ _ _ H).
Qed.

Lemma still_perform (o : Op) : moves_stack o = false → still (perform o).
Proof.
  intros Ho. destruct o; try discriminate Ho; cbn [perform];
    (apply still_bind; [|intros; apply still_ret]).
  - apply still_current.
  - apply still__start.
  - apply still_finish.
  - apply still_child.
  - apply still_addSuccessFields.
  - apply still_finishAfter.
  - apply still_fire.
  - apply still_startTask.
  - apply still_startAction.
Qed.

Lemma still_perform_all (prog : list Op) :
  forallb (fun o => negb (moves_stack o)) prog = true → still (perform_all prog).
Proof.
  induction prog as [|o prog IH]; intros Hp; cbn.
  - apply still_ret.
  - cbn in Hp. apply andb_prop in Hp as [Ho Hp]. apply negb_true_iff in Ho.
    apply still_bind; [by apply still_perform|]. intros v.
    apply still_bind; [by apply IH | intros; apply still_ret].
Qed.

(** X10: only entering and leaving move the stack.  A program without
    [push], [pop], [__enter__] and [__exit__] leaves the stack of every
    thread as it was, however it ends: creating, starting and finishing
    actions, [startAction] and [startTask] among them, never change which
    action is current. *)
Theorem only_scopes_move_the_stack (prog : list Op) (s s' : State) (t : Tid) :
  forallb (fun o => negb (moves_stack o)) prog = true →
  ends_in (perform_all prog s) s' →
  context s' = context s ∧ stack_of s' t = stack_of s t ∧
  current t s' = in_state (current t s) s'.
Proof.
  intros Hp Hrun.
  assert (Hc : context s' = context s) by (by apply (still_perform_all prog)).
  split; [done|].
  assert (Hst : stack_of s' t = stack_of s t) by (unfold stack_of; by rewrite Hc).
  split; [done|]. by rewrite !current_eq, Hst.
Qed.

Lemma only_scopes_move_the_stack_witness :
  forallb (fun o => negb (moves_stack o)) children_prog = true ∧
  ends_in (perform_all children_prog task_state) children_state ∧
  context children_state = context task_state ∧
  stack_of children_state 0 = stack_of task_state 0 ∧
  current 0 children_state = in_state (current 0 task_state) children_state.
Proof.
  assert (Hrun : ends_in (perform_all children_prog task_state) children_state)
    by (vm_compute; reflexivity).
  split; [reflexivity|]. split; [exact Hrun|].
  exact (only_scopes_move_the_stack children_prog task_state children_state 0
           eq_refl Hrun).
Defined.

(** ** Levels and paths *)

Lemma string_app_nil (b : string) : "" +:+ b = b.
Proof. reflexivity. Qed.

Lemma string_app_cons (x : ascii) (a b : string) :
  String x a +:+ b = String x (a +:+ b).
Proof. reflexivity. Qed.

Lemma string_app_nil_r (a : string) : a +:+ "" = a.
Proof.
  induction a as [|x a IH]; [done|]. by rewrite string_app_cons, IH.
Qed.

Lemma string_app_assoc (a b c : string) : (a +:+ b) +:+ c = a +:+ (b +:+ c).
Proof.
  induction a as [|x a IH]; [done|]. by rewrite !string_app_cons, IH.
Qed.

Lemma slash_free_pretty_N_char (x : N) : Ascii.eqb (pretty_N_char x) "/"%char = false.
Proof. unfold pretty_N_char. by repeat case_match. Qed.

Lemma slash_free_pretty_N_go (x : N) (s : string) :
  slash_free s = true → slash_free (pretty_N_go x s) = true.
Proof.
  revert s. induction (N.lt_wf_0 x) as [x _ IH]; intros s Hs.
  destruct (decide (x = 0)%N) as [->|Hx].
  - by rewrite pretty_N_go_0.
  - rewrite pretty_N_go_step by lia. apply IH.
    + apply N.div_lt; lia.
    + cbn. by rewrite slash_free_pretty_N_char.
Qed.

Lemma slash_free_pretty (n : nat) : slash_free (pretty n) = true.
Proof.
  unfold pretty, pretty_nat, pretty, pretty_N. case_decide; [done|].
  by apply slash_free_pretty_N_go.
Qed.

(** Two strings cut at their first slash. *)
Lemma cut_at_slash (a b x y : string) :
  slash_free a = true → slash_free b = true →
  a +:+ String "/"%char x = b +:+ String "/"%char y → a = b ∧ x = y.
Proof.
  revert b. induction a as [|c a IH]; intros [|d b] Ha Hb;
    rewrite ?string_app_nil, ?string_app_cons.
  - by intros [= ->].
  - intros [= <- _]. by cbn in Hb.
  - intros [= -> _]. by cbn in Ha.
  - cbn in Ha, Hb.
    apply andb_prop in Ha as [_ Ha]. apply andb_prop in Hb as [_ Hb].
    intros [= -> H]. destruct (IH b Ha Hb H) as [-> ->]. done.
Qed.

Lemma render_snoc (path : list nat) (i : nat) :
  render (path ++ [i]) = render path +:+ pretty i +:+ "/".
Proof.
  unfold render. by rewrite foldl_snoc.
Qed.

Lemma render_from (acc : string) (path : list nat) :
  foldl (fun level i => level +:+ pretty i +:+ "/") acc path = acc +:+ segments path.
Proof.
  revert acc. induction path as [|i path IH]; intros acc; cbn.
  - by rewrite string_app_nil_r.
  - rewrite IH. by rewrite !string_app_assoc.
Qed.

Lemma render_segments (path : list nat) : render path = "/" +:+ segments path.
Proof. apply render_from. Qed.

Lemma segments_inj (p q : list nat) : segments p = segments q → p = q.
Proof.
  revert q. induction p as [|i p IH]; intros [|j q]; cbn.
  - done.
  - destruct (pretty j); discriminate.
  - destruct (pretty i); discriminate.
  - intros H.
    change (pretty i +:+ String "/"%char (segments p) =
            pretty j +:+ String "/"%char (segments q)) in H.
    destruct (cut_at_slash _ _ _ _ (slash_free_pretty i) (slash_free_pretty j) H)
      as [Hi Hs].
    apply (inj pretty) in Hi as ->. by rewrite (IH q Hs).
Qed.

Lemma render_inj (p q : list nat) : render p = render q → p = q.
Proof.
  rewrite !render_segments, !string_app_cons, !string_app_nil. intros [= H].
  by apply segments_inj.
Qed.

(** ** The actions of a task form a tree *)

Section tree.
Context (source : nat → string).
Hypothesis source_inj : ∀ n m, source n = source m → n = m.

Lemma tree_shaped_empty (drawn : nat) : tree_shaped source drawn ∅.
Proof.
  unfold tree_shaped, at_path. repeat split; intros *; by rewrite ?lookup_empty.
Qed.

Lemma tree_shaped_root (drawn : nat) (m : gmap ref (string * string * nat))
    (r0 : ref) :
  tree_shaped source drawn m → m !! r0 = None →
  tree_shaped source (S drawn) (<[r0 := (source drawn, "/", 0)]> m).
Proof.
  intros (T1 & T2 & T3 & T4) H0.
  assert (Hold : ∀ u path r k, at_path m u path r k →
            at_path (<[r0 := (source drawn, "/", 0)]> m) u path r k).
  { unfold at_path. intros u path r k H. rewrite lookup_insert_ne; [done|].
    intros ->. congruence. }
  split; [|split; [|split]].
  - intros r u level k. rewrite lookup_insert. case_decide as E.
    + intros [= <- <- <-]. exists drawn, []. by split; [lia|].
    + intros Hx. destruct (T1 _ _ _ _ Hx) as (n & path & ? & ? & ?).
      exists n, path. by split; [lia|].
  - intros u path i r k. unfold at_path at 1. rewrite lookup_insert.
    case_decide as E.
    + intros [= _ Hr _]. change "/" with (render []) in Hr.
      apply render_inj in Hr. by destruct path.
    + intros Hx. destruct (T2 _ _ _ _ _ Hx) as (p & kp & Hp & Hi).
      exists p, kp. split; [by apply Hold | done].
  - intros u path i p kp. unfold at_path at 1. rewrite lookup_insert.
    case_decide as E.
    + intros [= _ _ <-] Hi. lia.
    + intros Hx Hi. destruct (T3 _ _ _ _ _ Hx Hi) as (r & k & Hr).
      exists r, k. by apply Hold.
  - intros u path r k r' k'. unfold at_path. rewrite !lookup_insert.
    case_decide as E; case_decide as E'; subst; try done.
    + intros [= <- _ _] Hx. destruct (T1 _ _ _ _ Hx) as (n & ? & Hn & Hu & _).
      apply source_inj in Hu. lia.
    + intros Hx [= <- _ _]. destruct (T1 _ _ _ _ Hx) as (n & ? & Hn & Hu & _).
      apply source_inj in Hu. lia.
    + apply T4.
Qed.

Lemma tree_shaped_child (drawn : nat) (m : gmap ref (string * string * nat))
    (p r0 : ref) (u level : string) (n : nat) :
  tree_shaped source drawn m →
  m !! p = Some (u, level, n) → m !! r0 = None →
  tree_shaped source drawn
    (<[r0 := (u, level +:+ pretty (S n) +:+ "/", 0)]> (<[p := (u, level, S n)]> m)).
Proof.
  intros (T1 & T2 & T3 & T4) HP H0.
  destruct (T1 _ _ _ _ HP) as (n0 & pp & Hn0 & Hu & ->).
  rewrite <- render_snoc.
  set (m' := <[r0 := (u, render (pp ++ [S n]), 0)]> (<[p := (u, render pp, S n)]> m)).
  assert (Hne : r0 ≠ p) by (intros ->; congruence).
  assert (Hnew : at_path m' u (pp ++ [S n]) r0 0).
  { unfold at_path, m'. apply lookup_insert_eq. }
  assert (Hpar : at_path m' u pp p (S n)).
  { unfold at_path, m'. rewrite lookup_insert_ne by done. apply lookup_insert_eq. }
  assert (Hold : ∀ u' path r k, at_path m u' path r k →
            ∃ k', at_path m' u' path r k' ∧ (k ≤ k')%nat).
  { intros u' path r k H. unfold at_path in *.
    assert (r0 ≠ r) by (intros ->; congruence).
    unfold m'. rewrite lookup_insert_ne by done. rewrite lookup_insert.
    case_decide as E.
    - subst r. rewrite HP in H. injection H as <- <- <-.
      exists (S n). split; [done | lia].
    - exists k. by split. }
  assert (Hback : ∀ u' path r k, r ≠ r0 → at_path m' u' path r k →
            ∃ k0, at_path m u' path r k0 ∧
                  (k0 = k ∨ (r = p ∧ k = S n ∧ k0 = n))).
  { intros u' path r k Hr. unfold at_path, m'.
    rewrite lookup_insert_ne by done. rewrite lookup_insert. case_decide as E.
    - subst r. intros [= <- <- <-]. exists n. split; [done|]. by right.
    - intros H. exists k. split; [done | by left]. }
  split; [|split; [|split]].
  - intros r u' level k. unfold m'. rewrite !lookup_insert.
    case_decide as E; [|case_decide as E'].
    + intros [= <- <- <-]. by exists n0, (pp ++ [S n]).
    + intros [= <- <- <-]. by exists n0, pp.
    + apply T1.
  - intros u' path i r k H. destruct (decide (r = r0)) as [->|Hr].
    + unfold at_path in H, Hnew. rewrite Hnew in H. injection H as <- Hl <-.
      apply render_inj, app_inj_tail in Hl as [<- <-].
      exists p, (S n). split; [done | lia].
    + destruct (Hback _ _ _ _ Hr H) as (k0 & H' & _).
      destruct (T2 _ _ _ _ _ H') as (p' & kp & Hp' & Hi).
      destruct (Hold _ _ _ _ Hp') as (kp' & Hp'' & Hle).
      exists p', kp'. split; [done | lia].
  - intros u' path i q kq H Hi. destruct (decide (q = r0)) as [->|Hq].
    + unfold at_path in H, Hnew. rewrite Hnew in H. injection H as _ _ <-. lia.
    + destruct (Hback _ _ _ _ Hq H) as (k0 & H' & Hk).
      destruct (decide (i ≤ k0)%nat) as [Hik|Hik].
      * destruct (T3 _ _ i _ _ H') as (r & k & Hr); [lia|].
        destruct (Hold _ _ _ _ Hr) as (k' & Hr' & _). by exists r, k'.
      * destruct Hk as [->|(-> & -> & ->)]; [lia|].
        assert (i = S n) as -> by lia.
        unfold at_path in H'. rewrite HP in H'. injection H' as <- Hl.
        apply render_inj in Hl as <-. by exists r0, 0.
  - assert (Hfresh : ∀ u' path r k, r ≠ r0 → at_path m' u' path r k →
              at_path m' u' path r0 0 → False).
    { intros u' path r k Hr H Hn. unfold at_path in Hn, Hnew.
      rewrite Hnew in Hn. injection Hn as <- Hl.
      apply render_inj in Hl as <-.
      destruct (Hback _ _ _ _ Hr H) as (k0 & H' & _).
      destruct (T2 _ _ _ _ _ H') as (p' & kp & Hp' & Hi).
      assert (HP' : at_path m u pp p n) by exact HP.
      pose proof (T4 _ _ _ _ _ _ Hp' HP') as ->.
      unfold at_path in Hp'. rewrite HP in Hp'. injection Hp' as <-. lia. }
    intros u' path r k r' k' H H'.
    destruct (decide (r = r0)) as [->|Hr], (decide (r' = r0)) as [->|Hr'].
    + done.
    + destruct (decide (k = 0)) as [->|Hk].
      * by destruct (Hfresh _ _ _ _ Hr' H' H).
      * unfold at_path in H, Hnew. rewrite Hnew in H. by injection H as _ _ <-.
    + destruct (decide (k' = 0)) as [->|Hk].
      * by destruct (Hfresh _ _ _ _ Hr H H').
      * unfold at_path in H', Hnew. rewrite Hnew in H'. by injection H' as _ _ <-.
    + destruct (Hback _ _ _ _ Hr H) as (k0 & H0' & _).
      destruct (Hback _ _ _ _ Hr' H') as (k0' & H0'' & _).
      by apply (T4 _ _ _ _ _ _ H0' H0'').
Qed.
End tree.

Lemma nodes_lookup (s : State) (r : ref) (A : Action) :
  actions s !! r = Some A → nodes s !! r = Some (node A).
Proof. intros H. unfold nodes. by rewrite lookup_fmap, H. Qed.

Lemma nodes_lookup_inv (s : State) (r : ref) (x : string * string * nat) :
  nodes s !! r = Some x → ∃ A, actions s !! r = Some A ∧ x = node A.
Proof.
  unfold nodes. rewrite lookup_fmap. destruct (actions s !! r) as [A|]; [|done].
  intros [= <-]. by exists A.
Qed.

Lemma nodes_assign_same (s : State) (r : ref) (A X : Action) :
  actions s !! r = Some A → node X = node A →
  nodes (set_actions <[r := X]> s) = nodes s.
Proof.
  intros H E. unfold nodes. cbn. rewrite fmap_insert, E.
  apply insert_id. by rewrite lookup_fmap, H.
Qed.

Lemma tree_shaped_effect (s s' : State) :
  effect s s' →
  (∀ n m, uuid4_source s n = uuid4_source s m → n = m) →
  tree_shaped (uuid4_source s) (uuid4_drawn s) (nodes s) →
  tree_shaped (uuid4_source s') (uuid4_drawn s') (nodes s').
Proof.
  intros Heff Hinj HT.
  destruct Heff as [s0 f|s0 f|s0 f|s0 lg ty sr|s0 p P lg ty sr HP|s0 r A fields HA
         |s0 r A e HA Hf|s0 r A fields HA]; try exact HT.
  - unfold nodes. cbn. rewrite fmap_insert.
    apply (tree_shaped_root _ Hinj); [exact HT|].
    by rewrite lookup_fmap, fresh_ref_None.
  - unfold nodes. cbn. rewrite !fmap_insert.
    apply (tree_shaped_child (uuid4_source s0) (uuid4_drawn s0) (nodes s0) p
             (fresh (dom (actions s0))) (task_uuid (_identification P))
             (task_level (_identification P)) (_numberOfChildren P)); [exact HT| |].
    + by apply nodes_lookup.
    + unfold nodes. by rewrite lookup_fmap, fresh_ref_None.
  - change (nodes (wrote _ _ _ ?x)) with (nodes x).
    rewrite (nodes_assign_same _ _ A); [exact HT|done|done].
  - change (nodes (wrote _ _ _ ?x)) with (nodes x).
    rewrite (nodes_assign_same _ _ A); [exact HT|done|by destruct e].
  - rewrite (nodes_assign_same _ _ A); [exact HT|done|done].
Qed.

Lemma tree_shaped_effects (s s' : State) :
  rtc effect s s' →
  (∀ n m, uuid4_source s n = uuid4_source s m → n = m) →
  tree_shaped (uuid4_source s) (uuid4_drawn s) (nodes s) →
  uuid4_source s' = uuid4_source s ∧
  tree_shaped (uuid4_source s') (uuid4_drawn s') (nodes s').
Proof.
  induction 1 as [|s1 s2 s3 H _ IH]; intros Hinj HT; [done|].
  destruct (effect_kept _ _ H) as (_ & _ & Hs & _).
  assert (Hinj2 : ∀ n m, uuid4_source s2 n = uuid4_source s2 m → n = m)
    by (rewrite Hs; exact Hinj).
  destruct (IH Hinj2 (tree_shaped_effect _ _ H Hinj HT)) as [Hs' HT'].
  split; [congruence | done].
Qed.

Lemma tree_shaped_after (prog : list Op) (s s' : State) :
  actions s = ∅ →
  (∀ n m, uuid4_source s n = uuid4_source s m → n = m) →
  ends_in (perform_all prog s) s' →
  uuid4_source s' = uuid4_source s ∧
  tree_shaped (uuid4_source s') (uuid4_drawn s') (nodes s').
Proof.
  intros He Hinj Hrun.
  apply tree_shaped_effects; [exact (traced_perform_all prog s s' Hrun)|done|].
  unfold nodes. rewrite He, fmap_empty. apply tree_shaped_empty.
Qed.

(** X11: within a task the level identifies the action.  After any program
    of API calls on a store that was empty, with a [uuid4] that never returns
    the same value twice, two actions with the same [task_uuid] and the same
    [task_level] are one and the same action. *)
Theorem levels_identify_actions (prog : list Op) (s s' : State) (r r' : ref)
    (A A' : Action) :
  actions s = ∅ →
  (∀ n m, uuid4_source s n = uuid4_source s m → n = m) →
  ends_in (perform_all prog s) s' →
  actions s' !! r = Some A →
  actions s' !! r' = Some A' →
  task_uuid (_identification A) = task_uuid (_identification A') →
  task_level (_identification A) = task_level (_identification A') →
  r = r'.
Proof.
  intros He Hinj Hrun HA HA' Hu Hl.
  destruct (tree_shaped_after prog s s' He Hinj Hrun) as (_ & T1 & _ & _ & T4).
  pose proof (nodes_lookup _ _ _ HA) as HN.
  pose proof (nodes_lookup _ _ _ HA') as HN'.
  destruct (T1 _ _ _ _ HN) as (n & path & _ & _ & Hp).
  apply (T4 (task_uuid (_identification A)) path r (_numberOfChildren A)
            r' (_numberOfChildren A')); unfold at_path.
  - by rewrite HN, <- Hp.
  - by rewrite HN', Hu, <- Hp, Hl.
Qed.

(** X12: the actions of a task form a tree that the levels spell out.  After
    any program of API calls on a store that was empty, with a [uuid4] that
    never returns the same value twice, every action has a [task_uuid] that
    [uuid4] returned and a [task_level] that renders a path of child
    numbers.  If the path is not empty, the action's parent is in the store,
    in the same task, at the path without its last number [i]; the action's
    level is the parent's level followed by [i] and a slash, and [i] is
    between 1 and the parent's number of children.  And for every [i]
    between 1 and the action's own number of children, its [i]-th child is
    in the store. *)
Theorem actions_form_a_tree (prog : list Op) (s s' : State) (r : ref) (A : Action) :
  actions s = ∅ →
  (∀ n m, uuid4_source s n = uuid4_source s m → n = m) →
  ends_in (perform_all prog s) s' →
  actions s' !! r = Some A →
  (∃ n, (n < uuid4_drawn s')%nat ∧
        task_uuid (_identification A) = uuid4_source s n) ∧
  (∃ path, task_level (_identification A) = render path ∧
     ∀ parent_path i, path = parent_path ++ [i] →
       ∃ p P, actions s' !! p = Some P ∧
              task_uuid (_identification P) = task_uuid (_identification A) ∧
              task_level (_identification P) = render parent_path ∧
              task_level (_identification A) =
                task_level (_identification P) +:+ pretty i +:+ "/" ∧
              (1 ≤ i ≤ _numberOfChildren P)%nat) ∧
  (∀ i, (1 ≤ i ≤ _numberOfChildren A)%nat →
     ∃ c C, actions s' !! c = Some C ∧
            task_uuid (_identification C) = task_uuid (_identification A) ∧
            task_level (_identification C) =
              task_level (_identification A) +:+ pretty i +:+ "/").
Proof.
  intros He Hinj Hrun HA.
  destruct (tree_shaped_after prog s s' He Hinj Hrun) as (Hs & T1 & T2 & T3 & _).
  pose proof (nodes_lookup _ _ _ HA) as HN.
  destruct (T1 _ _ _ _ HN) as (n & path & Hn & Hu & Hp).
  split; [exists n; by rewrite <- Hs|]. split.
  - exists path. split; [done|]. intros pp i ->.
    destruct (T2 (task_uuid (_identification A)) pp i r (_numberOfChildren A))
      as (p & kp & Hpar & Hi); [unfold at_path; by rewrite HN, <- Hp|].
    apply nodes_lookup_inv in Hpar as (P & HP & [= Hpu Hpl Hpk]).
    exists p, P. split; [done|]. split; [done|]. split; [done|].
    split; [by rewrite Hp, render_snoc, Hpl | by rewrite <- Hpk].
  - intros i Hi.
    destruct (T3 (task_uuid (_identification A)) path i r (_numberOfChildren A))
      as (c & k & Hc); [unfold at_path; by rewrite HN, <- Hp | done |].
    apply nodes_lookup_inv in Hc as (C & HC & [= Hcu Hcl Hck]).
    exists c, C. split; [done|]. split; [done|]. by rewrite Hp, <- render_snoc.
Qed.

Lemma initial_uuids_distinct (n m : nat) :
  uuid4_source initial_state n = uuid4_source initial_state m → n = m.
Proof.
  cbn. intros H. apply (inj (String.append "uuid-")) in H.
  by apply (inj pretty) in H.
Qed.

Lemma levels_identify_actions_witness :
  actions initial_state = ∅ ∧
  (∀ n m, uuid4_source initial_state n = uuid4_source initial_state m → n = m) ∧
  ends_in (perform_all sample_prog initial_state) sample_state ∧
  ∃ A, actions sample_state !! 1 = Some A ∧
       task_level (_identification A) = "/1/" ∧
       (∀ r' A', actions sample_state !! r' = Some A' →
                 task_uuid (_identification A) = task_uuid (_identification A') →
                 task_level (_identification A) = task_level (_identification A') →
                 1 = r').
Proof.
  assert (Hrun : ends_in (perform_all sample_prog initial_state) sample_state)
    by (vm_compute; reflexivity).
  split; [reflexivity|]. split; [exact initial_uuids_distinct|]. split; [exact Hrun|].
  assert (H1 : ∃ A, actions sample_state !! 1 = Some A ∧
                    task_level (_identification A) = "/1/").
  { eexists. split; [vm_compute; reflexivity | reflexivity]. }
  destruct H1 as (A & HA & Hl). exists A. split; [exact HA|]. split; [exact Hl|].
  intros r' A' HA' Hu Hl'.
  exact (levels_identify_actions sample_prog initial_state sample_state 1 r' A A'
           eq_refl initial_uuids_distinct Hrun HA HA' Hu Hl').
Defined.

Lemma actions_form_a_tree_witness :
  actions initial_state = ∅ ∧
  (∀ n m, uuid4_source initial_state n = uuid4_source initial_state m → n = m) ∧
  ends_in (perform_all sample_prog initial_state) sample_state ∧
  ∃ A, actions sample_state !! 1 = Some A ∧
       task_level (_identification A) = "/1/" ∧
       ∃ path, task_level (_identification A) = render path ∧
         ∀ parent_path i, path = parent_path ++ [i] →
           ∃ p P, actions sample_state !! p = Some P ∧
                  task_uuid (_identification P) = task_uuid (_identification A) ∧
                  task_level (_identification P) = render parent_path ∧
                  task_level (_identification A) =
                    task_level (_identification P) +:+ pretty i +:+ "/" ∧
                  (1 ≤ i ≤ _numberOfChildren P)%nat.
Proof.
  assert (Hrun : ends_in (perform_all sample_prog initial_state) sample_state)
    by (vm_compute; reflexivity).
  split; [reflexivity|]. split; [exact initial_uuids_distinct|]. split; [exact Hrun|].
  assert (H1 : ∃ A, actions sample_state !! 1 = Some A ∧
                    task_level (_identification A) = "/1/").
  { eexists. split; [vm_compute; reflexivity | reflexivity]. }
  destruct H1 as (A & HA & Hl). exists A. split; [exact HA|]. split; [exact Hl|].
  exact (proj1 (proj2 (actions_form_a_tree sample_prog initial_state sample_state 1 A
                         eq_refl initial_uuids_distinct Hrun HA))).
Defined.

(** ** The scope of the docstring *)




(** ** One stack per thread *)

Lemma quiet_of_still {A} (t : Tid) (m : M A) : still m → quiet t m.
Proof. intros H s s' He. unfold stack_of. by rewrite (H s s' He). Qed.

Lemma quiet_ret {A} (t : Tid) (v : A) : quiet t (ret v).
Proof. apply quiet_of_still, still_ret. Qed.

Lemma quiet_bind {A B} (t : Tid) (m : M A) (k : A → M B) :
  quiet t m → (∀ v, quiet t (k v)) → quiet t (bind m k).
Proof.
  intros Hm Hk s s' H. apply bind_ends_inv in H as [[e H]|(x & s1 & H1 & H)].
  - apply Hm. by rewrite H.
  - etrans; [by eapply Hk|]. apply Hm. by rewrite H1.
Qed.

Lemma quiet_push (t t' : Tid) (a : ref) : t' ≠ t → quiet t (push t' a).
Proof.
  intros Hne s s' <-. by rewrite stack_of_set_context, decide_False.
Qed.

Lemma quiet_pop (t t' : Tid) : t' ≠ t → quiet t (pop t').
Proof.
  intros Hne s s'. unfold pop. destruct (stack_of s t'); intros <-; [done|].
  by rewrite stack_of_set_context, decide_False.
Qed.

Lemma quiet_perform (t : Tid) (o : Op) : thread_of o ≠ Some t → quiet t (perform o).
Proof.
  intros Ho.
  destruct (moves_stack o) eqn:Hm;
    [|by apply quiet_of_still, still_perform].
  destruct o; try discriminate Hm; cbn [perform];
    (apply quiet_bind; [|intros; apply quiet_ret]);
    assert (t0 ≠ t) by (intros ->; by apply Ho).
  - by apply quiet_push.
  - by apply quiet_pop.
  - apply quiet_bind; [by apply quiet_push | intros; apply quiet_ret].
  - apply quiet_bind; [by apply quiet_pop|]. intros.
    apply quiet_bind; [apply quiet_of_still, still_finish | intros; apply quiet_ret].
Qed.

Lemma quiet_perform_all (t : Tid) (prog : list Op) :
  Forall (fun o => thread_of o ≠ Some t) prog → quiet t (perform_all prog).
Proof.
  induction 1 as [|o prog Ho _ IH]; cbn.
  - apply quiet_ret.
  - apply quiet_bind; [by apply quiet_perform|]. intros v.
    apply quiet_bind; [apply IH | intros; apply quiet_ret].
Qed.

(** X14: each thread has its own stack.  A program none of whose calls is
    made on thread [t] leaves the stack of [t] as it was, however it ends:
    what other threads push, pop, enter or leave never changes the current
    action of [t], and so never changes the parent that [startAction] picks
    on [t]. *)
Theorem other_threads_leave_the_stack (prog : list Op) (s s' : State) (t : Tid)
    (logger : Logger) (type : string) (sr : option _ActionSerializers)
    (fields : Fields) :
  Forall (fun o => thread_of o ≠ Some t) prog →
  ends_in (perform_all prog s) s' →
  stack_of s' t = stack_of s t ∧
  current t s' = in_state (current t s) s' ∧
  (stack_of s t = [] →
   startAction t logger type sr fields s' = startTask logger type sr fields s').
Proof.
  intros Hp Hrun.
  assert (Hst : stack_of s' t = stack_of s t) by (by apply (quiet_perform_all t prog)).
  split; [done|]. split; [by rewrite !current_eq, Hst|].
  intros He. apply startAction_root. by rewrite Hst.
Qed.

Lemma other_threads_leave_the_stack_witness :
  Forall (fun o => thread_of o ≠ Some 0) other_thread_prog ∧
  Forall (fun o => thread_of o ≠ Some 2) other_thread_prog ∧
  ends_in (perform_all other_thread_prog entered_state) other_thread_state ∧
  stack_of other_thread_state 0 = [0] ∧
  stack_of entered_state 2 = [] ∧
  startAction 2 7 "t:c" None ∅ other_thread_state =
    startTask 7 "t:c" None ∅ other_thread_state.
Proof.
  assert (H0 : Forall (fun o => thread_of o ≠ Some 0) other_thread_prog)
    by (repeat constructor; discriminate).
  assert (H2 : Forall (fun o => thread_of o ≠ Some 2) other_thread_prog)
    by (repeat constructor; discriminate).
  assert (Hrun : ends_in (perform_all other_thread_prog entered_state)
                   other_thread_state) by (vm_compute; reflexivity).
  assert (He : stack_of entered_state 2 = []) by (vm_compute; reflexivity).
  split; [exact H0|]. split; [exact H2|]. split; [exact Hrun|].
  destruct (other_threads_leave_the_stack other_thread_prog entered_state
              other_thread_state 0 7 "t:c" None ∅ H0 Hrun) as (Hst & _ & _).
  destruct (other_threads_leave_the_stack other_thread_prog entered_state
              other_thread_state 2 7 "t:c" None ∅ H2 Hrun) as (_ & _ & Hroot).
  split; [rewrite Hst; vm_compute; reflexivity|]. split; [exact He | exact (Hroot He)].
Defined.

(** ** Ancestors *)

Lemma ancestors_in_nodes (source : nat → string) (drawn : nat)
    (m : gmap ref (string * string * nat)) (u : string) (pre suf : list nat) :
  tree_shaped source drawn m →
  ∀ r k, at_path m u (pre ++ suf) r k → ∃ q kq, at_path m u pre q kq.
Proof.
  intros (_ & T2 & _). induction suf as [|i suf IH] using rev_ind; intros r k H.
  - rewrite app_nil_r in H. by exists r, k.
  - rewrite app_assoc in H. destruct (T2 _ _ _ _ _ H) as (p & kp & Hp & _).
    by apply (IH p kp).
Qed.

(** X15: every action's ancestors are in the store.  After any program of
    API calls on a store that was empty, with a [uuid4] that never returns
    the same value twice: if an action's level renders a path, then for every
    beginning of that path there is an action of the same task at that level;
    in particular the root of its task, at level ["/"], is in the store. *)
Theorem ancestors_are_in_the_store (prog : list Op) (s s' : State) (r : ref)
    (A : Action) (pre suf : list nat) :
  actions s = ∅ →
  (∀ n m, uuid4_source s n = uuid4_source s m → n = m) →
  ends_in (perform_all prog s) s' →
  actions s' !! r = Some A →
  task_level (_identification A) = render (pre ++ suf) →
  (∃ q Q, actions s' !! q = Some Q ∧
          task_uuid (_identification Q) = task_uuid (_identification A) ∧
          task_level (_identification Q) = render pre) ∧
  (∃ q Q, actions s' !! q = Some Q ∧
          task_uuid (_identification Q) = task_uuid (_identification A) ∧
          task_level (_identification Q) = "/").
Proof.
  intros He Hinj Hrun HA Hl.
  destruct (tree_shaped_after prog s s' He Hinj Hrun) as (_ & HT).
  pose proof (nodes_lookup _ _ _ HA) as HN.
  assert (Hanc : ∀ pre' suf', pre ++ suf = pre' ++ suf' →
            ∃ q Q, actions s' !! q = Some Q ∧
                   task_uuid (_identification Q) = task_uuid (_identification A) ∧
                   task_level (_identification Q) = render pre').
  { intros pre' suf' E.
    destruct (ancestors_in_nodes _ _ _ (task_uuid (_identification A)) pre' suf' HT
                r (_numberOfChildren A)) as (q & kq & Hq).
    { unfold at_path. by rewrite HN, <- E, <- Hl. }
    apply nodes_lookup_inv in Hq as (Q & HQ & [= Hu Hlv _]). by exists q, Q. }
  split; [by apply (Hanc pre suf) | by apply (Hanc [] (pre ++ suf))].
Qed.

Lemma ancestors_are_in_the_store_witness :
  actions initial_state = ∅ ∧
  (∀ n m, uuid4_source initial_state n = uuid4_source initial_state m → n = m) ∧
  ends_in (perform_all sample_prog initial_state) sample_state ∧
  ∃ A, actions sample_state !! 1 = Some A ∧
       task_level (_identification A) = render ([] ++ [1]) ∧
       ∃ q Q, actions sample_state !! q = Some Q ∧
              task_uuid (_identification Q) = task_uuid (_identification A) ∧
              task_level (_identification Q) = "/".
Proof.
  assert (Hrun : ends_in (perform_all sample_prog initial_state) sample_state)
    by (vm_compute; reflexivity).
  split; [reflexivity|]. split; [exact initial_uuids_distinct|]. split; [exact Hrun|].
  assert (H1 : ∃ A, actions sample_state !! 1 = Some A ∧
                    task_level (_identification A) = render ([] ++ [1])).
  { eexists. split; [vm_compute; reflexivity | reflexivity]. }
  destruct H1 as (A & HA & Hl). exists A. split; [exact HA|]. split; [exact Hl|].
  exact (proj2 (ancestors_are_in_the_store sample_prog initial_state sample_state 1 A
                  [] [1] eq_refl initial_uuids_distinct Hrun HA Hl)).
Defined.

(** ** The life of an action in the log *)





























(** ** The message counter and the log *)




